(** * Boyer-Moore substring search: a shallow embedding of [Boyer-Moore.cpp]

    The development models the three functions of the program,
    [precomputeBadCharacterTable], [precomputeGoodSuffixTable] and
    [searchBoyerMoore], and proves the properties the specification states
    about them.

    Modelling choices.
    - [int] is modelled by [Z].  The source narrows [length()] to a 32-bit
      [int] and computes [m + 1] and [step++] in [int]: the model agrees with
      it on strings shorter than [INT_MAX] bytes, and the theorems about whole
      runs carry that bound as a hypothesis.
    - [std::string] is a [list byte]; [(unsigned char) c] is [Byte.to_N].
    - [std::vector<int>] is a [list Z]; [operator[]] is a checked access that
      faults outside the vector (C++ leaves it undefined) and that is recorded
      in the trace of the run.
    - [std::cout << ...] appends a print event to the same trace.
    - every [while]/[for] is an iteration with fuel; each function supplies the
      fuel itself, and the theorems show that it never runs out. *)

From Stdlib Require Import ZArith List Lia Bool.
From Stdlib Require Import Strings.Byte.
From stdpp Require Import base list list_numbers sorting.
Import ListNotations.

Local Open Scope Z_scope.

(** ** Traces, faults and the monad of the model *)

Inductive array := Pattern | Text | BadCharTable | GoodSuffixShifts | BorderPos.

Inductive heuristic := BadCharacter | GoodSuffix.

Inductive event :=
| Read (a : array) (i : Z)
| Write (a : array) (i v : Z)
| PrintAlignmentStep (step shift : Z)
| PrintFound (shift : Z)
| PrintFullMatchShift (finalShift : Z)
| PrintShiftDetails (badCharShift goodSuffixShift : Z) (h : heuristic) (shiftAmount : Z)
| PrintPatternAlignment (shift : Z)
| PrintDegenerate
| PrintNotFound
| PrintSummary (matched : list Z) (totalSkippedChars : Z).

Inductive fault :=
| OutOfBounds (a : array) (i : Z)
| OutOfFuel.

Inductive result (A : Type) :=
| Ok (a : A) (log : list event)
| Fault (f : fault).
Arguments Ok {A} a log.
Arguments Fault {A} f.

Definition ret {A} (a : A) : result A := Ok a [].

Definition bind {A B} (c : result A) (k : A -> result B) : result B :=
  match c with
  | Ok a l1 =>
      match k a with
      | Ok b l2 => Ok b (l1 ++ l2)
      | Fault f => Fault f
      end
  | Fault f => Fault f
  end.

Declare Scope bm_scope.
Delimit Scope bm_scope with bm.
Notation "x <- c ;; k" := (bind c (fun x => k))
  (at level 100, c at next level, right associativity) : bm_scope.
Notation "c ;;; k" := (bind c (fun _ => k))
  (at level 100, right associativity) : bm_scope.
Local Open Scope bm_scope.

Definition print (e : event) : result unit := Ok tt [e].

(** ** Vectors and strings with checked indexing *)

Definition len {A} (v : list A) : Z := Z.of_nat (length v).

Definition in_range {A} (v : list A) (i : Z) : bool :=
  (0 <=? i) && (i <? len v).

(** [v[i]] used as a value. *)
Definition read {A} (a : array) (v : list A) (i : Z) : result A :=
  match (if 0 <=? i then v !! Z.to_nat i else None) with
  | Some x => Ok x [Read a i]
  | None => Fault (OutOfBounds a i)
  end.

(** [v[i] = x]. *)
Definition write (a : array) (v : list Z) (i x : Z) : result (list Z) :=
  if in_range v i then Ok (<[Z.to_nat i := x]> v) [Write a i x]
  else Fault (OutOfBounds a i).

(** [(unsigned char) c] *)
Definition uchar (c : byte) : Z := Z.of_N (Byte.to_N c).

(** ** Loops *)

Inductive ctl (St : Type) :=
| Next (s : St)
| Break (s : St).
Arguments Next {St} s.
Arguments Break {St} s.

(** One unit of fuel is spent each time the loop is entered, the last time to
    find that it is over. *)
Fixpoint loop {St} (fuel : nat) (body : St -> result (ctl St)) (s : St) : result St :=
  match fuel with
  | O => Fault OutOfFuel
  | S fuel' =>
      r <- body s ;;
      match r with
      | Next s' => loop fuel' body s'
      | Break s' => ret s'
      end
  end.

(** [while (cond) { body }] *)
Definition while {St} (fuel : nat) (cond : St -> result bool)
    (body : St -> result St) (s : St) : result St :=
  loop fuel
    (fun s => b <- cond s ;;
              if b : bool then s' <- body s ;; ret (Next s') else ret (Break s))
    s.

(** ** [precomputeBadCharacterTable] *)

Definition NUM_CHARS : Z := 256.

Record bc_state := { bc_table : list Z; bc_i : Z }.

Definition precomputeBadCharacterTable (pattern : list byte) : result (list Z) :=
  let patternLength := len pattern in
  let badCharTable := replicate (Z.to_nat NUM_CHARS) (-1) in
  st <- while (S (length pattern))
          (fun st => ret (bc_i st <? patternLength))
          (fun st =>
             c <- read Pattern pattern (bc_i st) ;;
             t <- write BadCharTable (bc_table st) (uchar c) (bc_i st) ;;
             ret {| bc_table := t; bc_i := bc_i st + 1 |})
          {| bc_table := badCharTable; bc_i := 0 |} ;;
  ret (bc_table st).

(** ** [precomputeGoodSuffixTable] *)

Record gs_state := {
  goodSuffixShifts : list Z;
  borderPos : list Z;
  gs_i : Z;
  gs_j : Z
}.

(** The inner [while (j <= m && pattern[i - 1] != pattern[j - 1])]. *)
Definition border_chain (pattern : list byte) (m : Z) (fuel : nat)
    (st : gs_state) : result gs_state :=
  while fuel
    (fun st =>
       if gs_j st <=? m then
         a <- read Pattern pattern (gs_i st - 1) ;;
         b <- read Pattern pattern (gs_j st - 1) ;;
         ret (negb (Byte.eqb a b))
       else ret false)
    (fun st =>
       g <- read GoodSuffixShifts (goodSuffixShifts st) (gs_j st) ;;
       shifts <- (if g =? 0
                  then write GoodSuffixShifts (goodSuffixShifts st) (gs_j st)
                         (gs_j st - gs_i st)
                  else ret (goodSuffixShifts st)) ;;
       j <- read BorderPos (borderPos st) (gs_j st) ;;
       ret {| goodSuffixShifts := shifts; borderPos := borderPos st;
              gs_i := gs_i st; gs_j := j |})
    st.

(** The outer [while (i > 0)]. *)
Definition border_pass (pattern : list byte) (m : Z) (fuel : nat)
    (st : gs_state) : result gs_state :=
  while fuel
    (fun st => ret (0 <? gs_i st))
    (fun st =>
       st <- border_chain pattern m fuel st ;;
       let i := gs_i st - 1 in
       let j := gs_j st - 1 in
       bp <- write BorderPos (borderPos st) i j ;;
       ret {| goodSuffixShifts := goodSuffixShifts st; borderPos := bp;
              gs_i := i; gs_j := j |})
    st.

(** The final [for (i = 0; i <= m; ++i)]. *)
Definition fill_pass (m : Z) (fuel : nat) (st : gs_state) : result gs_state :=
  while fuel
    (fun st => ret (gs_i st <=? m))
    (fun st =>
       g <- read GoodSuffixShifts (goodSuffixShifts st) (gs_i st) ;;
       shifts <- (if g =? 0
                  then write GoodSuffixShifts (goodSuffixShifts st) (gs_i st)
                         (gs_j st)
                  else ret (goodSuffixShifts st)) ;;
       j <- (if gs_i st =? gs_j st
             then read BorderPos (borderPos st) (gs_j st)
             else ret (gs_j st)) ;;
       ret {| goodSuffixShifts := shifts; borderPos := borderPos st;
              gs_i := gs_i st + 1; gs_j := j |})
    st.

Definition precomputeGoodSuffixTable (pattern : list byte) : result (list Z) :=
  let m := len pattern in
  let fuel := S (S (length pattern)) in
  let shifts := replicate (Z.to_nat (m + 1)) 0 in
  let bp := replicate (Z.to_nat (m + 1)) 0 in
  let i := m in
  let j := m + 1 in
  bp <- write BorderPos bp i j ;;
  st <- border_pass pattern m fuel
          {| goodSuffixShifts := shifts; borderPos := bp; gs_i := i; gs_j := j |} ;;
  j <- read BorderPos (borderPos st) 0 ;;
  st <- fill_pass m fuel
          {| goodSuffixShifts := goodSuffixShifts st; borderPos := borderPos st;
             gs_i := 0; gs_j := j |} ;;
  ret (goodSuffixShifts st).

(** ** [searchBoyerMoore] *)

Record search_state := {
  shift : Z;
  matchedIndex : list Z;
  found : bool;
  totalSkippedChars : Z;
  step : Z
}.

(** The right-to-left comparison [while (j >= 0)] with its [break]. *)
Definition compare (text pattern : list byte) (shift : Z) (fuel : nat)
    (j : Z) : result Z :=
  loop fuel
    (fun j =>
       if 0 <=? j then
         p <- read Pattern pattern j ;;
         t <- read Text text (shift + j) ;;
         if Byte.eqb p t then ret (Next (j - 1)) else ret (Break j)
       else ret (Break j))
    j.

(** One iteration of [while (shift <= (n - m))]. *)
Definition search_step (text pattern : list byte) (n m : Z)
    (badCharTable goodSuffixShifts : list Z) (st : search_state)
    : result search_state :=
  print (PrintAlignmentStep (step st) (shift st)) ;;;
  j <- compare text pattern (shift st) (S (length pattern)) (m - 1) ;;
  st' <- (if j <? 0 then
            print (PrintFound (shift st)) ;;;
            finalShift <- read GoodSuffixShifts goodSuffixShifts 0 ;;
            (if finalShift + shift st <=? n - m
             then print (PrintFullMatchShift finalShift) else ret tt) ;;;
            let shift' := shift st + finalShift in
            ret {| shift := shift';
                   matchedIndex := matchedIndex st ++ [shift st];
                   found := true;
                   totalSkippedChars :=
                     (if (1 <? finalShift) && (shift' <=? n - m)
                      then totalSkippedChars st + (finalShift - 1)
                      else totalSkippedChars st);
                   step := step st + 1 |}
          else
            c <- read Text text (shift st + j) ;;
            last <- read BadCharTable badCharTable (uchar c) ;;
            let badCharShift := Z.max 1 (j - last) in
            goodSuffixShift <- read GoodSuffixShifts goodSuffixShifts (j + 1) ;;
            let finalShift := Z.max badCharShift goodSuffixShift in
            let heuristic :=
              if badCharShift >=? goodSuffixShift then BadCharacter else GoodSuffix in
            print (PrintShiftDetails badCharShift goodSuffixShift heuristic finalShift) ;;;
            let shift' := shift st + finalShift in
            ret {| shift := shift';
                   matchedIndex := matchedIndex st;
                   found := found st;
                   totalSkippedChars :=
                     (if (1 <? finalShift) && (shift' <=? n - m)
                      then totalSkippedChars st + (finalShift - 1)
                      else totalSkippedChars st);
                   step := step st + 1 |}) ;;
  (if shift st' <=? n - m then print (PrintPatternAlignment (shift st')) else ret tt) ;;;
  ret st'.

(** What a call leaves behind: either the early return of the edge case, or
    the locals of the completed search. *)
Inductive outcome :=
| Degenerate
| Searched (st : search_state).

Definition matches (o : outcome) : list Z :=
  match o with
  | Degenerate => []
  | Searched st => matchedIndex st
  end.

Definition searchBoyerMoore (text pattern : list byte) : result outcome :=
  let n := len text in
  let m := len pattern in
  if (m =? 0) || (n <? m) then
    print PrintDegenerate ;;;
    ret Degenerate
  else
    badCharTable <- precomputeBadCharacterTable pattern ;;
    goodSuffixShifts <- precomputeGoodSuffixTable pattern ;;
    st <- while (S (Z.to_nat (n - m + 1)))
            (fun st => ret (shift st <=? n - m))
            (search_step text pattern n m badCharTable goodSuffixShifts)
            {| shift := 0; matchedIndex := []; found := false;
               totalSkippedChars := 0; step := 1 |} ;;
    (if negb (found st) then print PrintNotFound else ret tt) ;;;
    print (PrintSummary (matchedIndex st) (totalSkippedChars st)) ;;;
    ret (Searched st).

(** ** The reference scan of the specification *)

#[global] Instance byte_eq_decision : EqDecision byte := Byte.byte_eq_dec.

(** [t[i : i + len p] == p] *)
Definition occurs_at (t p : list byte) (i : nat) : bool :=
  bool_decide (take (length p) (drop i t) = p).

(** All the offsets at which the pattern occurs, in ascending order. *)
Definition naive_search (t p : list byte) : list Z :=
  Z.of_nat <$> filter (fun i => occurs_at t p i = true) (seq 0 (S (length t))).

(** ** Vocabulary of the statements *)

(** The largest [int].  A string of at most [INT_MAX] bytes has a length that
    [int n = text.length()] keeps as it is; below [INT_MAX], [m + 1] and the
    step counter, which ends at most at [n - m + 2], stay in range too. *)
Definition INT_MAX : Z := 2 ^ 31 - 1.

#[global] Instance byte_inhabited : Inhabited byte := populate x00.

(** The element at an [int] index. *)
Definition at_index {A} `{Inhabited A} (v : list A) (i : Z) : A :=
  v !!! Z.to_nat i.

(** The number of elements of each vector or string of a run on a text of
    length [n] and a pattern of length [m]. *)
Definition size_of (n m : Z) (a : array) : Z :=
  match a with
  | Pattern => m
  | Text => n
  | BadCharTable => NUM_CHARS
  | GoodSuffixShifts => m + 1
  | BorderPos => m + 1
  end.

(** An access recorded in the trace is within its vector or string. *)
Definition in_bounds (n m : Z) (e : event) : Prop :=
  match e with
  | Read a i | Write a i _ => 0 <= i <= size_of n m a - 1
  | _ => True
  end.

(** The event is an access, and it is within its vector or string: the traces
    of the two table constructions and of the comparison loop hold nothing
    else. *)
Definition access_ok (n m : Z) (e : event) : Prop :=
  match e with
  | Read a i | Write a i _ => 0 <= i <= size_of n m a - 1
  | _ => False
  end.

(** The alignment offsets announced in a trace, in order. *)
Definition alignment_of (e : event) : list Z :=
  match e with
  | PrintAlignmentStep _ s => [s]
  | _ => []
  end.

Definition alignments (l : list event) : list Z :=
  flat_map alignment_of l.

(** [v] is the last index below [i] at which [c] occurs in the pattern, or
    [-1] when there is none. *)
Definition last_before (pattern : list byte) (i : Z) (c : byte) (v : Z) : Prop :=
  (v = -1 /\ forall k, 0 <= k < i -> at_index pattern k ≠ c) \/
  (0 <= v < i /\ at_index pattern v = c /\
   forall k, v < k < i -> at_index pattern k ≠ c).

(** Invariant of the loop of [precomputeBadCharacterTable]. *)
Definition bc_inv (pattern : list byte) (n : Z) (st : bc_state) (l : list event) : Prop :=
  0 <= bc_i st <= len pattern /\ len (bc_table st) = NUM_CHARS /\
  (forall c, last_before pattern (bc_i st) c (at_index (bc_table st) (uchar c))) /\
  Forall (access_ok n (len pattern)) l.

(** *** Borders of the suffixes of the pattern

    Positions are those of the program: the suffix that starts at [j] is a
    border of the suffix that starts at [i] when it also occurs at [i], that is
    when sliding the pattern by [j - i] maps it onto itself from [j] on.  The
    empty suffix (at [len pattern]) is a border of every longer suffix, and
    [len pattern + 1] is the program's marker for "no border". *)
Definition border (pattern : list byte) (i j : Z) : Prop :=
  i < j /\
  forall q, j <= q < len pattern ->
            at_index pattern (q - (j - i)) = at_index pattern q.

(** [b] starts the widest border of the suffix at [k]. *)
Definition least_border (pattern : list byte) (k b : Z) : Prop :=
  border pattern k b /\ forall b', border pattern k b' -> b <= b'.

(** [borderPos] is filled in from [i] on. *)
Definition borders_known (pattern : list byte) (bp : list Z) (i : Z) : Prop :=
  forall k, i <= k <= len pattern -> least_border pattern k (at_index bp k).

(** The suffix at [j] occurs again at [i], preceded by a different character:
    case 1 of the good-suffix rule, with shift [j - i]. *)
Definition mismatch_pair (pattern : list byte) (i j : Z) : Prop :=
  j <= len pattern /\ border pattern i j /\
  at_index pattern (i - 1) ≠ at_index pattern (j - 1).

(** Every case-1 shift that starts above [i] has been recorded. *)
Definition case1_done (pattern : list byte) (gs : list Z) (i : Z) : Prop :=
  forall i' j', i < i' <= len pattern -> mismatch_pair pattern i' j' ->
    at_index gs j' ≠ 0 /\ at_index gs j' <= j' - i'.

(** The shifts recorded so far come from positions [i] and above. *)
Definition shifts_sound (pattern : list byte) (gs : list Z) (i : Z) : Prop :=
  forall k, 0 <= k <= len pattern ->
    0 <= at_index gs k /\ (at_index gs k ≠ 0 -> at_index gs k <= k - i).

(** The writes to [goodSuffixShifts] of a trace, as (slot, value) pairs. *)
Definition gs_write_of (e : event) : list (Z * Z) :=
  match e with
  | Write GoodSuffixShifts k v => [(k, v)]
  | _ => []
  end.

Definition gs_writes (l : list event) : list (Z * Z) :=
  flat_map gs_write_of l.

(** No slot was written twice, and every slot written holds the nonzero value
    that was written to it. *)
Definition write_once (gs : list Z) (l : list event) : Prop :=
  NoDup (fst <$> gs_writes l) /\
  forall k v, (k, v) ∈ gs_writes l -> 0 <= k /\ v ≠ 0 /\ at_index gs k = v.

(** Invariant of the outer loop of [precomputeGoodSuffixTable]. *)
Definition border_inv (pattern : list byte) (n : Z) (st : gs_state)
    (l : list event) : Prop :=
  let m := len pattern in
  0 <= gs_i st <= m /\
  len (goodSuffixShifts st) = m + 1 /\ len (borderPos st) = m + 1 /\
  gs_j st = at_index (borderPos st) (gs_i st) /\
  borders_known pattern (borderPos st) (gs_i st) /\
  case1_done pattern (goodSuffixShifts st) (gs_i st) /\
  shifts_sound pattern (goodSuffixShifts st) (gs_i st + 1) /\
  Forall (access_ok n m) l /\ write_once (goodSuffixShifts st) l.

(** Invariant of the inner loop, entered in state [st0]. *)
Definition chain_inv (pattern : list byte) (n : Z) (st0 st : gs_state)
    (l : list event) : Prop :=
  let m := len pattern in
  let i := gs_i st0 in
  let gs := goodSuffixShifts st in
  gs_i st = i /\ borderPos st = borderPos st0 /\ 1 <= i <= m /\
  len gs = m + 1 /\ len (borderPos st) = m + 1 /\
  border pattern i (gs_j st) /\ gs_j st <= m + 1 /\
  borders_known pattern (borderPos st) i /\
  (forall j', j' < gs_j st -> border pattern i j' ->
     at_index pattern (i - 1) ≠ at_index pattern (j' - 1) /\
     at_index gs j' ≠ 0 /\ at_index gs j' <= j' - i) /\
  case1_done pattern gs i /\
  shifts_sound pattern gs i /\
  Forall (access_ok n m) l /\ write_once gs l.

(** [j] starts the widest border of the whole pattern among those that start
    at [i] or later. *)
Definition next_border (pattern : list byte) (i j : Z) : Prop :=
  border pattern 0 j /\ i <= j /\
  forall b', border pattern 0 b' -> i <= b' -> j <= b'.

(** Invariant of the final loop of [precomputeGoodSuffixTable], entered with
    the table [gs1]. *)
Definition fill_inv (pattern : list byte) (n : Z) (gs1 : list Z)
    (st : gs_state) (l : list event) : Prop :=
  let m := len pattern in
  let gs := goodSuffixShifts st in
  0 <= gs_i st <= m + 1 /\
  len gs = m + 1 /\ len (borderPos st) = m + 1 /\
  borders_known pattern (borderPos st) 0 /\
  next_border pattern (gs_i st) (gs_j st) /\
  (forall k, 0 <= k < gs_i st ->
     (at_index gs1 k ≠ 0 /\ at_index gs k = at_index gs1 k) \/
     (at_index gs1 k = 0 /\ next_border pattern k (at_index gs k))) /\
  (forall k, gs_i st <= k <= m -> at_index gs k = at_index gs1 k) /\
  Forall (access_ok n m) l /\ write_once gs l.

(** Shifting the pattern by [d] is compatible with what a mismatch at
    [k - 1] has shown: the characters from [k] on have matched the text, the
    character at [k - 1] has not ([k = 0] stands for a full match). *)
Definition candidate (pattern : list byte) (k d : Z) : Prop :=
  (forall q, k <= q < len pattern -> d <= q ->
             at_index pattern (q - d) = at_index pattern q) /\
  (1 <= k -> d <= k - 1 ->
   at_index pattern (k - 1 - d) ≠ at_index pattern (k - 1)).

(** What the search needs from the table: every slot is a positive shift that
    skips no compatible alignment. *)
Definition good_suffix_table (pattern : list byte) (G : list Z) : Prop :=
  len G = len pattern + 1 /\
  least_border pattern 0 (at_index G 0) /\
  forall k, 0 <= k <= len pattern ->
    1 <= at_index G k <= Z.max 1 (len pattern) /\
    forall d, 1 <= d < at_index G k -> ~ candidate pattern k d.

(** [b] is the length of a border of [p] in the sense of the specification: a
    proper prefix of [p] that is also a suffix of [p]. *)
Definition is_border (p : list byte) (b : nat) : bool :=
  (b <? length p)%nat && bool_decide (take b p = drop (length p - b) p).

(** The pattern occurs in the text at offset [s]. *)
Definition occurrence (text pattern : list byte) (s : Z) : Prop :=
  0 <= s /\ s + len pattern <= len text /\
  forall q, 0 <= q < len pattern ->
            at_index text (s + q) = at_index pattern q.

(** Invariant of the comparison loop at alignment [s]: the characters to the
    right of [j] have matched. *)
Definition compare_inv (text pattern : list byte) (s j : Z)
    (l : list event) : Prop :=
  -1 <= j <= len pattern - 1 /\
  (forall q, j < q < len pattern ->
             at_index pattern q = at_index text (s + q)) /\
  Forall (access_ok (len text) (len pattern)) l.

(** Invariant of the search loop: the matches recorded are the occurrences
    below the current alignment, and the alignments tried so far are strictly
    increasing. *)
Definition search_inv (text pattern : list byte) (st : search_state)
    (l : list event) : Prop :=
  let n := len text in
  let m := len pattern in
  0 <= shift st /\
  matchedIndex st
  = Z.of_nat <$> filter (fun i => occurs_at text pattern i = true)
                   (seq 0 (Z.to_nat (shift st))) /\
  StronglySorted Z.lt (alignments l) /\
  (forall s, s ∈ alignments l -> 0 <= s < shift st) /\
  Z.of_nat (length (alignments l)) <= Z.min (shift st) (n - m + 1) /\
  StronglySorted Z.lt (matchedIndex st) /\
  (forall s, s ∈ matchedIndex st -> s < shift st) /\
  Forall (in_bounds n m) l.

(** The value a run returns, without its trace. *)
Definition value_of {A} (r : result A) : option A :=
  match r with
  | Ok a _ => Some a
  | Fault _ => None
  end.

(** The content of slot [k] of [goodSuffixShifts] after the writes of the
    trace [l], starting from the zero placeholder. *)
Definition slot_value (l : list event) (k : Z) : Z :=
  fold_left (fun acc e =>
               match e with
               | Write GoodSuffixShifts k' v => if k' =? k then v else acc
               | _ => acc
               end) l 0.

(** ** Vocabulary of the further properties *)

(** The shifts recorded so far are shifts of case 1: slot [k] holding [d] means
    that the suffix at [k] occurs again [d] positions to the left, preceded by
    a different character. *)
Definition recorded_ok (pattern : list byte) (gs : list Z) : Prop :=
  forall k, 0 <= k <= len pattern -> at_index gs k ≠ 0 ->
    1 <= k - at_index gs k /\
    mismatch_pair pattern (k - at_index gs k) k.

(** [borderPos] links every position from [i] on to a border of its suffix. *)
Definition border_links (pattern : list byte) (bp : list Z) (i : Z) : Prop :=
  forall k, i <= k <= len pattern ->
    border pattern k (at_index bp k) /\ at_index bp k <= len pattern + 1.

(** The accesses a run of the border pass can have made when it stands at
    [i] and [j]: five for each step along a border chain, three for each
    position done, one for the initial write. *)
Definition border_budget (m i j : Z) : Z :=
  5 * (j - i - 1) + 3 * (m - i) + 1.

(** Second invariant of the outer loop of [precomputeGoodSuffixTable]. *)
Definition border_inv2 (pattern : list byte) (st : gs_state)
    (l : list event) : Prop :=
  let m := len pattern in
  0 <= gs_i st <= m /\
  len (goodSuffixShifts st) = m + 1 /\ len (borderPos st) = m + 1 /\
  gs_j st = at_index (borderPos st) (gs_i st) /\
  border_links pattern (borderPos st) (gs_i st) /\
  recorded_ok pattern (goodSuffixShifts st) /\
  Z.of_nat (length l) <= border_budget m (gs_i st) (gs_j st).

(** Second invariant of the inner loop, entered in state [st0]. *)
Definition chain_inv2 (pattern : list byte) (st0 st : gs_state)
    (l : list event) : Prop :=
  let m := len pattern in
  let i := gs_i st0 in
  gs_i st = i /\ borderPos st = borderPos st0 /\ 1 <= i <= m /\
  len (goodSuffixShifts st) = m + 1 /\ len (borderPos st) = m + 1 /\
  border pattern i (gs_j st) /\ gs_j st <= m + 1 /\
  border_links pattern (borderPos st) i /\
  recorded_ok pattern (goodSuffixShifts st) /\
  Z.of_nat (length l) <= border_budget m i (gs_j st).

(** Second invariant of the final loop, entered with the table [gs1] after
    [l0] accesses. *)
Definition fill_inv2 (pattern : list byte) (gs1 : list Z) (l0 : Z)
    (st : gs_state) (l : list event) : Prop :=
  let m := len pattern in
  let gs := goodSuffixShifts st in
  0 <= gs_i st <= m + 1 /\
  len gs = m + 1 /\ len (borderPos st) = m + 1 /\
  border_links pattern (borderPos st) 0 /\
  border pattern 0 (gs_j st) /\ gs_i st <= gs_j st <= m + 1 /\
  (forall k, 0 <= k < gs_i st ->
     (at_index gs1 k ≠ 0 /\ at_index gs k = at_index gs1 k) \/
     (border pattern 0 (at_index gs k) /\ k <= at_index gs k)) /\
  (forall k, gs_i st <= k <= m -> at_index gs k = at_index gs1 k) /\
  Z.of_nat (length l) <= l0 + 3 * gs_i st.

(** The offsets reported by "Pattern found at index", in order. *)
Definition found_offsets (l : list event) : list Z :=
  flat_map (fun e => match e with PrintFound s => [s] | _ => [] end) l.

(** The step numbers announced with the alignments, in order. *)
Definition step_numbers (l : list event) : list Z :=
  flat_map (fun e => match e with PrintAlignmentStep k _ => [k] | _ => [] end) l.

(** The offsets at which the alignment diagram is drawn, in order. *)
Definition pattern_alignments (l : list event) : list Z :=
  flat_map (fun e => match e with PrintPatternAlignment s => [s] | _ => [] end) l.

(** The messages that close a call. *)
Definition is_report (e : event) : Prop :=
  match e with
  | PrintDegenerate | PrintNotFound | PrintSummary _ _ => True
  | _ => False
  end.

(** Invariant of the search loop on the bookkeeping of [searchBoyerMoore]:
    the flag, the step counter, the skipped characters and what has been
    printed. *)
Definition book_inv (text pattern : list byte) (st : search_state)
    (l : list event) : Prop :=
  let n := len text in
  let m := len pattern in
  let tried := Z.of_nat (length (alignments l)) in
  0 <= shift st <= n /\
  (found st = true <-> matchedIndex st ≠ []) /\
  step st = 1 + tried /\
  step_numbers l = seqZ 1 tried /\
  found_offsets l = matchedIndex st /\
  totalSkippedChars st + tried
  = (if shift st <=? n - m then shift st
     else default 0 (last (alignments l)) + 1) /\
  alignments l ++ (if shift st <=? n - m then [shift st] else [])
  = 0 :: pattern_alignments l /\
  Z.of_nat (length l) <= (2 * m + 6) * tried /\
  Forall (fun e => ~ is_report e) l.

(** The event is an access to the text, the pattern or one of the three
    vectors of tables. *)
Definition is_access (e : event) : bool :=
  match e with
  | Read _ _ | Write _ _ _ => true
  | _ => false
  end.

(** The number of such accesses in a trace. *)
Definition access_count (l : list event) : nat :=
  length (List.filter is_access l).

(** * Proofs *)

(** ** Runs on the examples of the specification *)

Example search_worked_example :
  value_of (searchBoyerMoore [x41; x41; x41; x41; x41; x41; x42] [x41; x42])
  = Some (Searched {| shift := 7; matchedIndex := [5]; found := true;
                      totalSkippedChars := 0; step := 7 |}).
Proof. reflexivity. Qed.

Example search_overlapping :
  matches <$> value_of (searchBoyerMoore [x41; x41; x41; x41] [x41; x41])
  = Some [0; 1; 2].
Proof. reflexivity. Qed.

Example search_no_match :
  matches <$> value_of (searchBoyerMoore [x41; x41; x41; x41; x41; x41; x42]
                          [x58; x59; x5a])
  = Some [].
Proof. reflexivity. Qed.

Example search_empty_pattern :
  value_of (searchBoyerMoore [x41; x42] []) = Some Degenerate.
Proof. reflexivity. Qed.

Example good_suffix_no_repetition :
  value_of (precomputeGoodSuffixTable [x41; x42; x43]) = Some [3; 3; 3; 1].
Proof. reflexivity. Qed.

Example good_suffix_periodic :
  value_of (precomputeGoodSuffixTable [x41; x41; x41; x41]) = Some [1; 1; 2; 3; 4].
Proof. reflexivity. Qed.

Example naive_search_overlapping :
  naive_search [x41; x41; x41; x41] [x41; x41] = [0; 1; 2].
Proof. reflexivity. Qed.

(** ** Checked accesses *)

Lemma len_replicate {A} (k : Z) (x : A) : 0 <= k -> len (replicate (Z.to_nat k) x) = k.
Proof. intros Hk. unfold len. rewrite length_replicate. lia. Qed.

Lemma len_insert {A} (v : list A) (i : nat) (x : A) : len (<[i:=x]> v) = len v.
Proof. unfold len. now rewrite length_insert. Qed.

Lemma len_nonneg {A} (v : list A) : 0 <= len v.
Proof. unfold len. lia. Qed.

Lemma read_ok {A} `{Inhabited A} (a : array) (v : list A) (i : Z) :
  0 <= i < len v -> read a v i = Ok (at_index v i) [Read a i].
Proof.
  intros [H0 H1]. unfold read, at_index, len in *.
  destruct (Z.leb_spec 0 i); [|lia].
  rewrite (list_lookup_lookup_total_lt v (Z.to_nat i)) by lia.
  reflexivity.
Qed.

Lemma write_ok (a : array) (v : list Z) (i x : Z) :
  0 <= i < len v -> write a v i x = Ok (<[Z.to_nat i := x]> v) [Write a i x].
Proof.
  intros [H0 H1]. unfold write, in_range.
  destruct (Z.leb_spec 0 i); [|lia].
  destruct (Z.ltb_spec i (len v)); [|lia].
  reflexivity.
Qed.

Lemma at_index_insert_eq (v : list Z) (i x : Z) :
  0 <= i < len v -> at_index (<[Z.to_nat i := x]> v) i = x.
Proof.
  intros Hi. unfold at_index, len in *.
  apply list_lookup_total_correct, list_lookup_insert_eq. lia.
Qed.

Lemma at_index_insert_ne (v : list Z) (i k x : Z) :
  0 <= i -> 0 <= k -> i <> k -> at_index (<[Z.to_nat i := x]> v) k = at_index v k.
Proof.
  intros Hi Hk Hne. unfold at_index.
  rewrite list_lookup_total_insert_ne by lia. reflexivity.
Qed.

Lemma at_index_replicate {A} `{Inhabited A} (k i : Z) (x : A) :
  0 <= i < k -> at_index (replicate (Z.to_nat k) x) i = x.
Proof.
  intros Hi. unfold at_index.
  apply list_lookup_total_correct, lookup_replicate_2. lia.
Qed.

(** ** The loop rule

    An invariant over the state and the trace produced since the loop was
    entered, and a measure that every further iteration decreases. *)

Section LoopRule.
Context {St : Type}.
Variable Inv : St -> list event -> Prop.
Variable Post : St -> list event -> Prop.
Variable measure : St -> nat.

Lemma loop_rule (body : St -> result (ctl St)) :
  (forall s l, Inv s l ->
     exists r lb, body s = Ok r lb /\
       match r with
       | Next s' => Inv s' (l ++ lb) /\ (measure s' < measure s)%nat
       | Break s' => Post s' (l ++ lb)
       end) ->
  forall fuel s l, Inv s l -> (measure s < fuel)%nat ->
    exists s' l', loop fuel body s = Ok s' l' /\ Post s' (l ++ l').
Proof.
  intros Hbody fuel. induction fuel as [|fuel IH]; intros s l HI Hm; [lia|].
  destruct (Hbody s l HI) as (r & lb & Hr & Hcase).
  simpl. rewrite Hr. destruct r as [s1|s1]; simpl.
  - destruct Hcase as [HI1 Hlt].
    destruct (IH s1 (l ++ lb) HI1) as (s' & l' & Hloop & HP); [lia|].
    rewrite Hloop. exists s', (lb ++ l'). split; [reflexivity|].
    now rewrite app_assoc.
  - exists s1, (lb ++ []). split; [reflexivity|]. now rewrite app_nil_r.
Qed.

Lemma while_rule (cond : St -> result bool) (body : St -> result St) :
  (forall s l, Inv s l ->
     exists b lc, cond s = Ok b lc /\
       if b then
         exists s' lb, body s = Ok s' lb /\ Inv s' (l ++ lc ++ lb) /\
                       (measure s' < measure s)%nat
       else Post s (l ++ lc)) ->
  forall fuel s l, Inv s l -> (measure s < fuel)%nat ->
    exists s' l', while fuel cond body s = Ok s' l' /\ Post s' (l ++ l').
Proof.
  intros Hstep fuel s l HI Hm. unfold while.
  apply loop_rule; [|assumption|assumption].
  clear s l HI Hm. intros s l HI.
  destruct (Hstep s l HI) as (b & lc & Hc & Hcase). rewrite Hc.
  destruct b.
  - destruct Hcase as (s' & lb & Hb & HI' & Hlt). rewrite Hb. simpl.
    exists (Next s'), (lc ++ lb ++ []). split; [reflexivity|].
    rewrite app_nil_r. split; assumption.
  - simpl. exists (Break s), (lc ++ []). split; [reflexivity|].
    now rewrite app_nil_r.
Qed.
End LoopRule.

(** ** Characters as table indices *)

Lemma uchar_range (c : byte) : 0 <= uchar c <= 255.
Proof. unfold uchar. pose proof (Byte.to_N_bounded c). lia. Qed.

Lemma uchar_inj (c1 c2 : byte) : uchar c1 = uchar c2 -> c1 = c2.
Proof.
  unfold uchar. intros Heq. apply N2Z.inj in Heq.
  pose proof (Byte.of_to_N c1) as H1. pose proof (Byte.of_to_N c2) as H2.
  rewrite Heq in H1. congruence.
Qed.

Lemma byte_eqb_true (a b : byte) : Byte.eqb a b = true <-> a = b.
Proof.
  split; [apply Byte.byte_dec_bl | apply Byte.byte_dec_lb].
Qed.

Lemma byte_eqb_false (a b : byte) : Byte.eqb a b = false <-> a <> b.
Proof.
  rewrite <- byte_eqb_true. destruct (Byte.eqb a b); split; congruence.
Qed.

(** ** The bad-character table *)

Section BadCharacter.
Variable pattern : list byte.
Variable n : Z.
Let m := len pattern.

Lemma bad_character_loop :
  exists st l,
    while (S (length pattern))
      (fun st => ret (bc_i st <? len pattern))
      (fun st =>
         c <- read Pattern pattern (bc_i st) ;;
         t <- write BadCharTable (bc_table st) (uchar c) (bc_i st) ;;
         ret {| bc_table := t; bc_i := bc_i st + 1 |})
      {| bc_table := replicate (Z.to_nat NUM_CHARS) (-1); bc_i := 0 |}
    = Ok st l /\ bc_inv pattern n st l /\ bc_i st = m.
Proof.
  pose proof (len_nonneg pattern) as Hm. fold m in Hm.
  edestruct (while_rule (bc_inv pattern n) (fun st l => bc_inv pattern n st l /\ bc_i st = m)
               (fun st => Z.to_nat (m - bc_i st)))
    as (st & l & Hrun & Hpost); cycle 1.
  - instantiate (1 := []). instantiate (1 := {| bc_table := _; bc_i := 0 |}).
    unfold bc_inv; simpl. split; [lia|]. split.
    { now rewrite len_replicate. }
    split; [|constructor].
    intros c. left. split; [|intros; lia].
    pose proof (uchar_range c). apply at_index_replicate. unfold NUM_CHARS. lia.
  - instantiate (1 := S (length pattern)). simpl. unfold m, len. lia.
  - exists st, l. split; [exact Hrun|]. simpl in Hpost. exact Hpost.
  - intros st l (Hi & Hlen & Hlast & Hlog).
    exists (bc_i st <? len pattern), []. split; [reflexivity|].
    fold m. destruct (Z.ltb_spec (bc_i st) m) as [Hlt|Hge].
    + pose proof (uchar_range (at_index pattern (bc_i st))) as Hu.
      rewrite read_ok by (fold m; lia). simpl.
      rewrite write_ok by (rewrite Hlen; unfold NUM_CHARS; lia). simpl.
      eexists _, _. split; [reflexivity|]. simpl. split; [|lia].
      unfold bc_inv; simpl. split; [lia|]. split.
      { now rewrite len_insert. }
      split.
      * intros c. destruct (decide (c = at_index pattern (bc_i st))) as [->|Hne].
        -- rewrite at_index_insert_eq by (rewrite Hlen; unfold NUM_CHARS; lia).
           right. split; [lia|]. split; [reflexivity|]. intros; lia.
        -- pose proof (uchar_range c).
           rewrite at_index_insert_ne
             by (try lia; intros Heq; apply uchar_inj in Heq; congruence).
           destruct (Hlast c) as [[Hv Hno]|(Hv & Hc & Hno)].
           ++ left. split; [exact Hv|]. intros k Hk.
              destruct (decide (k = bc_i st)) as [->|]; [congruence|].
              apply Hno. lia.
           ++ right. split; [lia|]. split; [exact Hc|]. intros k Hk.
              destruct (decide (k = bc_i st)) as [->|]; [congruence|].
              apply Hno. lia.
      * apply Forall_app. split; [exact Hlog|].
        repeat constructor; simpl; unfold NUM_CHARS; fold m; lia.
    + rewrite app_nil_r. split; [|lia]. repeat split; try assumption; lia.
Qed.
End BadCharacter.

Lemma precomputeBadCharacterTable_spec (pattern : list byte) (n : Z) :
  exists T l,
    precomputeBadCharacterTable pattern = Ok T l /\
    len T = NUM_CHARS /\
    (forall c, last_before pattern (len pattern) c (at_index T (uchar c))) /\
    Forall (access_ok n (len pattern)) l.
Proof.
  destruct (bad_character_loop pattern n) as (st & l & Hrun & Hinv & Hi).
  destruct Hinv as (_ & Hlen & Hlast & Hlog).
  exists (bc_table st), (l ++ []).
  split.
  - unfold precomputeBadCharacterTable. rewrite Hrun. reflexivity.
  - rewrite app_nil_r. rewrite Hi in Hlast. auto.
Qed.

Lemma not_elem_of_at_index (pattern : list byte) (c : byte) :
  (forall k, 0 <= k < len pattern -> at_index pattern k ≠ c) -> c ∉ pattern.
Proof.
  intros Hno Hin. apply list_elem_of_lookup in Hin as [i Hi].
  pose proof (lookup_lt_Some _ _ _ Hi) as Hlt.
  apply (Hno (Z.of_nat i)); [unfold len; lia|].
  unfold at_index. rewrite Nat2Z.id. now apply list_lookup_total_correct.
Qed.

(** C6. For a pattern whose length fits in an [int], the bad-character table
    has one slot per symbol of the 256-symbol alphabet; the slot of a symbol
    holds the greatest index at which the symbol occurs in the pattern, or
    [-1] when the symbol does not occur; the table of the empty pattern holds
    [-1] everywhere. *)
Theorem bad_character_table_rightmost (pattern : list byte) :
  len pattern <= INT_MAX ->
  exists T l,
    precomputeBadCharacterTable pattern = Ok T l /\
    len T = 256 /\
    (forall c : byte,
       (at_index T (uchar c) = -1 /\ c ∉ pattern) \/
       (0 <= at_index T (uchar c) < len pattern /\
        at_index pattern (at_index T (uchar c)) = c /\
        forall k, at_index T (uchar c) < k < len pattern ->
                  at_index pattern k ≠ c)) /\
    (pattern = [] -> T = replicate 256 (-1)).
Proof.
  intros _.
  destruct (precomputeBadCharacterTable_spec pattern 0)
    as (T & l & Hrun & Hlen & Hlast & _).
  exists T, l. split; [exact Hrun|]. split; [exact Hlen|]. split.
  - intros c. destruct (Hlast c) as [[Hv Hno]|Hocc].
    + left. split; [exact Hv|]. now apply not_elem_of_at_index.
    + right. exact Hocc.
  - intros ->. vm_compute in Hrun. now injection Hrun as <- _.
Qed.

Lemma bad_character_table_rightmost_witness :
  len [x41; x42; x41] <= INT_MAX /\
  exists T l,
    precomputeBadCharacterTable [x41; x42; x41] = Ok T l /\
    len T = 256 /\
    (forall c : byte,
       (at_index T (uchar c) = -1 /\ c ∉ [x41; x42; x41]) \/
       (0 <= at_index T (uchar c) < len [x41; x42; x41] /\
        at_index [x41; x42; x41] (at_index T (uchar c)) = c /\
        forall k, at_index T (uchar c) < k < len [x41; x42; x41] ->
                  at_index [x41; x42; x41] k ≠ c)) /\
    ([x41; x42; x41] = [] -> T = replicate 256 (-1)).
Proof.
  split; [vm_compute; discriminate|].
  apply (bad_character_table_rightmost [x41; x42; x41]). vm_compute; discriminate.
Defined.

(** ** Borders *)

Section Borders.
Variable pattern : list byte.
Let m := len pattern.

Lemma border_trans (i j k : Z) :
  border pattern i j -> border pattern j k -> border pattern i k.
Proof.
  intros [Hij Hi] [Hjk Hj]. split; [lia|].
  intros q Hq. rewrite <- (Hj q Hq).
  replace (q - (k - i)) with (q - (k - j) - (j - i)) by lia.
  apply Hi. lia.
Qed.

Lemma border_diff (i j k : Z) :
  border pattern i j -> border pattern i k -> j < k -> border pattern j k.
Proof.
  intros [Hij Hj] [Hik Hk] Hjk. split; [exact Hjk|].
  intros q Hq. rewrite <- (Hk q Hq).
  replace (q - (k - i)) with (q - (k - j) - (j - i)) by lia.
  symmetry. apply Hj. lia.
Qed.

Lemma border_beyond (i b : Z) : i < b -> m <= b -> border pattern i b.
Proof. intros Hib Hb. split; [exact Hib|]. intros q Hq. fold m in Hq. lia. Qed.

Lemma border_extend (i j : Z) :
  border pattern i j ->
  (j <= m -> at_index pattern (i - 1) = at_index pattern (j - 1)) ->
  border pattern (i - 1) (j - 1).
Proof.
  intros [Hij Hj] Heq. split; [lia|].
  intros q Hq. fold m in Hq.
  replace (q - (j - 1 - (i - 1))) with (q - (j - i)) by lia.
  destruct (decide (q = j - 1)) as [->|Hne].
  - replace (j - 1 - (j - i)) with (i - 1) by lia. apply Heq. lia.
  - apply Hj. fold m. lia.
Qed.

Lemma border_shrink (i b : Z) :
  border pattern (i - 1) b -> b < m ->
  border pattern i (b + 1) /\ at_index pattern (i - 1) = at_index pattern b.
Proof.
  intros [Hib Hb] Hlt. split.
  - split; [lia|]. intros q Hq.
    replace (q - (b + 1 - i)) with (q - (b - (i - 1))) by lia.
    apply Hb. lia.
  - rewrite <- (Hb b) by (fold m; lia). f_equal. lia.
Qed.

Lemma least_border_bound (k b : Z) :
  k <= m -> least_border pattern k b -> k < b <= m + 1.
Proof.
  intros Hk [[Hlt _] Hleast]. split; [exact Hlt|].
  apply Hleast. apply border_beyond; lia.
Qed.
End Borders.

(** ** Writes to the shift table *)

Lemma gs_writes_app (l1 l2 : list event) :
  gs_writes (l1 ++ l2) = gs_writes l1 ++ gs_writes l2.
Proof. unfold gs_writes. apply flat_map_app. Qed.

Lemma gs_writes_cons (e : event) (l : list event) :
  gs_writes (e :: l) = gs_write_of e ++ gs_writes l.
Proof. reflexivity. Qed.

Lemma gs_writes_nil : gs_writes [] = [].
Proof. reflexivity. Qed.

Ltac writes_eq :=
  repeat first [rewrite gs_writes_app | rewrite gs_writes_cons
               | rewrite gs_writes_nil];
  simpl; repeat rewrite app_nil_r; repeat rewrite <- app_assoc;
  try reflexivity.

Lemma write_once_same (gs : list Z) (l l' : list event) :
  gs_writes l' = gs_writes l -> write_once gs l -> write_once gs l'.
Proof. unfold write_once. now intros ->. Qed.

Lemma write_once_set (gs : list Z) (l l' : list event) (j v : Z) :
  write_once gs l -> gs_writes l' = gs_writes l ++ [(j, v)] ->
  0 <= j < len gs -> at_index gs j = 0 -> v ≠ 0 ->
  write_once (<[Z.to_nat j := v]> gs) l'.
Proof.
  intros [Hnd Hval] Hl' Hj Hzero Hv. unfold write_once. rewrite Hl'.
  assert (Hfresh : forall v', (j, v') ∉ gs_writes l).
  { intros v' Hin. destruct (Hval _ _ Hin) as (_ & Hne & Heq). congruence. }
  split.
  - rewrite fmap_app. simpl. apply NoDup_app. split; [exact Hnd|]. split.
    + intros k Hk Hk'. apply list_elem_of_fmap in Hk as [[k' v'] [-> Hin]].
      simpl in Hk'. apply list_elem_of_singleton in Hk'. subst k'.
      exact (Hfresh _ Hin).
    + apply NoDup_singleton.
  - intros k w Hin. apply elem_of_app in Hin as [Hin|Hin].
    + destruct (Hval _ _ Hin) as (Hk & Hw & Heq).
      split; [exact Hk|]. split; [exact Hw|].
      rewrite at_index_insert_ne; [exact Heq|lia|lia|].
      intros <-. exact (Hfresh _ Hin).
    + apply list_elem_of_singleton in Hin. injection Hin as -> ->.
      split; [lia|]. split; [exact Hv|]. now apply at_index_insert_eq.
Qed.

(** The guarded assignment [if (goodSuffixShifts[j] == 0) goodSuffixShifts[j] = v]
    after its guard has been read. *)
Lemma set_if_unset (gs : list Z) (j v : Z) :
  0 <= j < len gs ->
  exists gs' lw,
    (if at_index gs j =? 0 then write GoodSuffixShifts gs j v else ret gs)
    = Ok gs' lw /\
    len gs' = len gs /\
    (forall k, 0 <= k -> k ≠ j -> at_index gs' k = at_index gs k) /\
    (at_index gs j ≠ 0 -> at_index gs' j = at_index gs j) /\
    (at_index gs j = 0 -> at_index gs' j = v) /\
    (forall n m, len gs = m + 1 -> Forall (access_ok n m) lw) /\
    (forall l l', write_once gs l -> v ≠ 0 ->
                  gs_writes l' = gs_writes l ++ gs_writes lw ->
                  write_once gs' l').
Proof.
  intros Hj. destruct (Z.eqb_spec (at_index gs j) 0) as [Hz|Hnz].
  - rewrite write_ok by exact Hj. eexists _, _. split; [reflexivity|].
    split; [apply len_insert|].
    split; [intros k Hk Hne; apply at_index_insert_ne; lia|].
    split; [intros; congruence|].
    split; [intros _; now apply at_index_insert_eq|].
    split.
    + intros n m Hlen. repeat constructor; simpl; lia.
    + intros l l' Hwo Hv Hl'. eapply write_once_set; eauto.
  - exists gs, []. split; [reflexivity|].
    split; [reflexivity|].
    split; [reflexivity|].
    split; [reflexivity|].
    split; [intros; congruence|].
    split; [intros; constructor|].
    intros l l' Hwo _ Hl'. rewrite gs_writes_nil, app_nil_r in Hl'.
    eapply write_once_same; eauto.
Qed.

(** ** The good-suffix table: following the border chain *)

Ltac log_ok :=
  repeat (first [apply Forall_app; split | assumption | constructor]);
  simpl; try lia.

Lemma chain_inv_log (pattern : list byte) (n : Z) (st0 st : gs_state)
    (l l' : list event) :
  chain_inv pattern n st0 st l ->
  Forall (access_ok n (len pattern)) l' -> gs_writes l' = gs_writes l ->
  chain_inv pattern n st0 st l'.
Proof.
  unfold chain_inv. intros H Hl' Hw.
  decompose [and] H. repeat (split; [assumption|]).
  split; [lia|]. repeat (split; [assumption|]).
  eapply write_once_same; eauto.
Qed.

Lemma border_chain_spec (pattern : list byte) (n : Z) (fuel : nat)
    (st0 : gs_state) (l : list event) :
  chain_inv pattern n st0 st0 l -> (length pattern + 2 <= fuel)%nat ->
  exists st l',
    border_chain pattern (len pattern) fuel st0 = Ok st l' /\
    chain_inv pattern n st0 st (l ++ l') /\
    (gs_j st <= len pattern ->
     at_index pattern (gs_i st0 - 1) = at_index pattern (gs_j st - 1)).
Proof.
  intros H0 Hfuel. unfold border_chain.
  set (m := len pattern). set (i := gs_i st0).
  apply (while_rule (chain_inv pattern n st0)
           (fun st l => chain_inv pattern n st0 st l /\
              (gs_j st <= m -> at_index pattern (i - 1) = at_index pattern (gs_j st - 1)))
           (fun st => Z.to_nat (m + 1 - gs_j st))); [|exact H0|].
  2:{ destruct H0 as (_ & _ & Hi & _ & _ & [Hlt _] & _).
      fold i in Hi, Hlt. unfold m, len. lia. }
  clear l H0. intros st l Hinv.
  pose proof Hinv as (Hgi & Hbp & Hi & Hlgs & Hlbp & Hbord & Hjm & Hknown & Hseen
                      & Hdone & Hsound & Hlog & Hwo).
  fold m in Hi, Hlgs, Hlbp, Hjm, Hlog. fold i in Hgi, Hi, Hbord, Hknown, Hseen, Hdone, Hsound.
  pose proof Hbord as [Hij _].
  destruct (Z.leb_spec (gs_j st) m) as [Hle|Hgt].
  2:{ exists false, []. split; [reflexivity|]. rewrite app_nil_r.
      split; [exact Hinv|]. intros; lia. }
  rewrite Hgi. fold i.
  rewrite !read_ok by (fold m; lia). simpl.
  eexists _, _. split; [reflexivity|].
  assert (Hlog' : Forall (access_ok n m)
                    (l ++ [Read Pattern (i - 1); Read Pattern (gs_j st - 1)])).
  { apply Forall_app. split; [exact Hlog|]. repeat constructor; simpl; lia. }
  destruct (Byte.eqb (at_index pattern (i - 1)) (at_index pattern (gs_j st - 1))) eqn:Heqb;
    simpl.
  - (* the characters agree: the loop is left *)
    apply byte_eqb_true in Heqb. split; [|intros _; exact Heqb].
    eapply chain_inv_log; [exact Hinv|exact Hlog'|writes_eq].
  - (* they differ: record the shift and follow the chain *)
    apply byte_eqb_false in Heqb.
    destruct (set_if_unset (goodSuffixShifts st) (gs_j st) (gs_j st - i))
      as (gs' & lw & Hset & Hlen' & Hother & Hkeep & Hnew & Hlw & Hwo'); [lia|].
    rewrite Hset. simpl.
    eexists _, _. split; [reflexivity|].
    destruct (Hknown (gs_j st)) as [Hnext Hleast]; [fold m; lia|].
    pose proof Hnext as [Hjj' _].
    assert (Hnz : forall k, 0 <= k -> at_index (goodSuffixShifts st) k ≠ 0 ->
                            at_index gs' k = at_index (goodSuffixShifts st) k).
    { intros k Hk Hne. destruct (decide (k = gs_j st)) as [->|Hkj]; auto. }
    split; [|simpl; lia].
    unfold chain_inv; simpl. fold m i.
    split; [reflexivity|]. split; [exact Hbp|]. split; [lia|].
    split; [lia|]. split; [exact Hlbp|].
    split; [eapply border_trans; eauto|].
    split.
    { apply (least_border_bound pattern (gs_j st)); [fold m; lia|]. now split. }
    split; [exact Hknown|].
    split.
    { intros j' Hj' Hb'.
      destruct (Z.lt_trichotomy j' (gs_j st)) as [Hlt|[->|Hgt]].
      - destruct (Hseen j' Hlt Hb') as (Hne & Hnz' & Hle').
        destruct Hb' as [Hij' _].
        rewrite Hnz by lia. auto.
      - split; [exact Heqb|].
        destruct (decide (at_index (goodSuffixShifts st) (gs_j st) = 0)) as [Hz|Hz].
        + rewrite Hnew by exact Hz. lia.
        + rewrite Hkeep by exact Hz. split; [exact Hz|].
          destruct (Hsound (gs_j st)) as [_ Hs]; [fold m; lia|]. auto.
      - exfalso. pose proof (border_diff pattern i (gs_j st) j' Hbord Hb' Hgt) as Hd.
        apply Hleast in Hd. lia. }
    split.
    { intros i' j' Hi' Hp. destruct (Hdone i' j' Hi' Hp) as [Hne Hle'].
      destruct Hp as (_ & [Hlt' _] & _).
      rewrite Hnz by lia. auto. }
    split.
    { intros k Hk. destruct (Hsound k Hk) as [Hk0 Hks].
      destruct (decide (k = gs_j st)) as [->|Hkj].
      - destruct (decide (at_index (goodSuffixShifts st) (gs_j st) = 0)) as [Hz|Hz].
        + rewrite Hnew by exact Hz. lia.
        + rewrite Hkeep by exact Hz. auto.
      - rewrite Hother by lia. auto. }
    split.
    { specialize (Hlw n m Hlgs). log_ok. }
    eapply Hwo'; [exact Hwo|lia|]. writes_eq.
Qed.

(** ** The good-suffix table: the right-to-left border pass *)

Lemma border_inv_chain_inv (pattern : list byte) (n : Z) (st : gs_state)
    (l : list event) :
  border_inv pattern n st l -> 0 < gs_i st -> chain_inv pattern n st st l.
Proof.
  intros (Hi & Hlgs & Hlbp & Hj & Hknown & Hdone & Hsound & Hlog & Hwo) Hpos.
  destruct (Hknown (gs_i st)) as [Hb Hleast]; [lia|].
  rewrite <- Hj in Hb, Hleast.
  unfold chain_inv.
  split; [reflexivity|]. split; [reflexivity|]. split; [lia|].
  split; [exact Hlgs|]. split; [exact Hlbp|]. split; [exact Hb|].
  split.
  { apply (least_border_bound pattern (gs_i st)); [lia|]. now split. }
  split; [exact Hknown|].
  split.
  { intros j' Hlt Hb'. apply Hleast in Hb'. lia. }
  split; [exact Hdone|].
  split; [|auto].
  intros k Hk. destruct (Hsound k Hk) as [H0 Hs]. split; [exact H0|].
  intros Hne. specialize (Hs Hne). lia.
Qed.

Lemma border_pass_spec (pattern : list byte) (n : Z) (fuel : nat)
    (st0 : gs_state) (l : list event) :
  border_inv pattern n st0 l -> (length pattern + 2 <= fuel)%nat ->
  exists st l',
    border_pass pattern (len pattern) fuel st0 = Ok st l' /\
    border_inv pattern n st (l ++ l') /\ gs_i st = 0.
Proof.
  intros H0 Hfuel. unfold border_pass.
  set (m := len pattern).
  apply (while_rule (border_inv pattern n)
           (fun st l => border_inv pattern n st l /\ gs_i st = 0)
           (fun st => Z.to_nat (gs_i st))); [|exact H0|].
  2:{ destruct H0 as (Hi & _). unfold len in Hi. lia. }
  clear l H0 st0. intros st l Hinv.
  exists (0 <? gs_i st), []. split; [reflexivity|]. rewrite app_nil_r.
  destruct (Z.ltb_spec 0 (gs_i st)) as [Hpos|Hle].
  2:{ split; [exact Hinv|]. destruct Hinv as (Hi & _). lia. }
  destruct (border_chain_spec pattern n fuel st l) as (st1 & l1 & Hrun & Hch & Hexit);
    [now apply border_inv_chain_inv|exact Hfuel|].
  fold m in Hrun, Hexit. rewrite Hrun. simpl.
  destruct Hch as (Hgi & Hbp & Hi & Hlgs & Hlbp & Hbord & Hjm & Hknown & Hseen
                     & Hdone & Hsound & Hlog & Hwo).
  set (i := gs_i st) in *. fold m in Hi, Hlgs, Hlbp, Hjm, Hlog.
  pose proof Hbord as [Hij _].
  rewrite Hgi.
  rewrite write_ok by lia. simpl.
  eexists _, _. split; [reflexivity|].
  split; [|simpl; lia].
  unfold border_inv; simpl. fold m.
  split; [lia|]. split; [exact Hlgs|]. split; [now rewrite len_insert|].
  split; [now rewrite at_index_insert_eq by lia|].
  split.
  { intros k Hk. fold m in Hk. destruct (decide (k = i - 1)) as [->|Hne].
    - rewrite at_index_insert_eq by lia. split.
      + apply border_extend; [exact Hbord|exact Hexit].
      + intros b' Hb'. destruct (Z.le_gt_cases (gs_j st1 - 1) b') as [|Hlt]; [assumption|].
        exfalso. destruct (border_shrink pattern i b' Hb') as [Hb1 Heq]; [fold m; lia|].
        destruct (Hseen (b' + 1)) as (Hne & _); [lia|exact Hb1|].
        apply Hne. rewrite Heq. f_equal. lia.
    - rewrite at_index_insert_ne by lia. apply Hknown. fold m. lia. }
  split.
  { intros i' j' Hi' Hp. fold m in Hi'.
    destruct (decide (i' = i)) as [->|Hne]; [|apply Hdone; [fold m; lia|exact Hp]].
    destruct Hp as (Hj'm & Hb' & Hmis). fold m in Hj'm.
    destruct (Z.lt_trichotomy j' (gs_j st1)) as [Hlt|[->|Hgt]].
    - destruct (Hseen j' Hlt Hb') as (_ & Hnz & Hle). auto.
    - exfalso. apply Hmis, Hexit. exact Hj'm.
    - destruct (Hdone (gs_j st1) j') as [Hnz Hle]; [fold m; lia| |split; [exact Hnz|lia]].
      split; [exact Hj'm|]. split.
      + eapply border_diff; eauto.
      + rewrite <- Hexit by lia. exact Hmis. }
  split.
  { replace (i - 1 + 1) with i by lia. exact Hsound. }
  split; [apply Forall_app in Hlog as [Hl Hl1]; log_ok|].
  eapply write_once_same; [|exact Hwo]. writes_eq.
Qed.

(** ** The good-suffix table: the left-to-right fill pass *)

Lemma fill_pass_spec (pattern : list byte) (n : Z) (fuel : nat)
    (st0 : gs_state) (l : list event) :
  fill_inv pattern n (goodSuffixShifts st0) st0 l ->
  (length pattern + 2 <= fuel)%nat ->
  exists st l',
    fill_pass (len pattern) fuel st0 = Ok st l' /\
    fill_inv pattern n (goodSuffixShifts st0) st (l ++ l') /\
    gs_i st = len pattern + 1.
Proof.
  intros H0 Hfuel. unfold fill_pass.
  set (m := len pattern). set (gs1 := goodSuffixShifts st0) in *.
  apply (while_rule (fill_inv pattern n gs1)
           (fun st l => fill_inv pattern n gs1 st l /\ gs_i st = m + 1)
           (fun st => Z.to_nat (m + 1 - gs_i st))); [|exact H0|].
  2:{ destruct H0 as (Hi & _). unfold m, len in *. lia. }
  clear l H0. intros st l Hinv.
  exists (gs_i st <=? m), []. split; [reflexivity|]. rewrite app_nil_r.
  pose proof Hinv as (Hi & Hlgs & Hlbp & Hknown & Hnext & Hfilled & Hrest & Hlog & Hwo).
  fold m in Hi, Hlgs, Hlbp, Hrest, Hlog.
  destruct (Z.leb_spec (gs_i st) m) as [Hle|Hgt].
  2:{ split; [exact Hinv|lia]. }
  pose proof Hnext as ([Hjpos _] & Hij & Hleast).
  rewrite read_ok by lia. simpl.
  destruct (set_if_unset (goodSuffixShifts st) (gs_i st) (gs_j st))
    as (gs' & lw & Hset & Hlen' & Hother & Hkeep & Hnew & Hlw & Hwo'); [lia|].
  rewrite Hset. simpl.
  specialize (Hlw n m Hlgs).
  assert (Hfilled' : forall k, 0 <= k < gs_i st + 1 ->
     (at_index gs1 k ≠ 0 /\ at_index gs' k = at_index gs1 k) \/
     (at_index gs1 k = 0 /\ next_border pattern k (at_index gs' k))).
  { intros k Hk. destruct (decide (k = gs_i st)) as [->|Hne].
    - pose proof (Hrest (gs_i st) ltac:(lia)) as Heq.
      destruct (decide (at_index gs1 (gs_i st) = 0)) as [Hz|Hnz].
      + right. split; [exact Hz|]. rewrite Hnew by congruence. exact Hnext.
      + left. split; [exact Hnz|]. rewrite Hkeep by congruence. exact Heq.
    - rewrite Hother by lia. apply Hfilled. lia. }
  assert (Hrest' : forall k, gs_i st + 1 <= k <= m -> at_index gs' k = at_index gs1 k).
  { intros k Hk. rewrite Hother by lia. apply Hrest. lia. }
  destruct (Z.eqb_spec (gs_i st) (gs_j st)) as [Heq|Hne].
  - (* the border is reached: move on to the next narrower one *)
    destruct (Hknown (gs_j st)) as [Hb Hl]; [fold m; lia|].
    pose proof Hb as [Hlt _].
    rewrite read_ok by lia. simpl.
    eexists _, _. split; [reflexivity|]. split; [|simpl; lia].
    unfold fill_inv; simpl. fold m.
    split; [lia|]. split; [lia|]. split; [exact Hlbp|]. split; [exact Hknown|].
    split.
    { destruct Hnext as (Hb0 & _ & _). split; [eapply border_trans; eauto|].
      split; [lia|]. intros b' Hb' Hge. apply Hl.
      eapply border_diff; eauto. lia. }
    split; [exact Hfilled'|]. split; [exact Hrest'|].
    split; [log_ok|].
    eapply Hwo'; [exact Hwo|lia|]. writes_eq.
  - simpl. eexists _, _. split; [reflexivity|]. split; [|simpl; lia].
    unfold fill_inv; simpl. fold m.
    split; [lia|]. split; [lia|]. split; [exact Hlbp|]. split; [exact Hknown|].
    split.
    { destruct Hnext as (Hb0 & _ & _). split; [exact Hb0|].
      split; [lia|]. intros b' Hb' Hge. apply Hleast; [exact Hb'|lia]. }
    split; [exact Hfilled'|]. split; [exact Hrest'|].
    split; [log_ok|].
    eapply Hwo'; [exact Hwo|lia|]. writes_eq.
Qed.

(** ** The good-suffix table: the whole construction *)

Lemma border_inv_init (pattern : list byte) (n : Z) :
  let m := len pattern in
  border_inv pattern n
    {| goodSuffixShifts := replicate (Z.to_nat (m + 1)) 0;
       borderPos := <[Z.to_nat m := m + 1]> (replicate (Z.to_nat (m + 1)) 0);
       gs_i := m; gs_j := m + 1 |}
    [Write BorderPos m (m + 1)].
Proof.
  intros m. pose proof (len_nonneg pattern) as Hm. fold m in Hm.
  unfold border_inv; simpl. fold m.
  split; [lia|]. split; [apply len_replicate; lia|].
  split; [rewrite len_insert; apply len_replicate; lia|].
  assert (Hbp : at_index (<[Z.to_nat m := m + 1]> (replicate (Z.to_nat (m + 1)) 0)) m
                = m + 1).
  { apply at_index_insert_eq. rewrite len_replicate; lia. }
  split; [now rewrite Hbp|].
  split.
  { intros k Hk. fold m in Hk. replace k with m by lia. rewrite Hbp. split.
    - apply border_beyond; fold m; lia.
    - intros b' [Hlt _]. lia. }
  split; [intros i' j' Hi'; fold m in Hi'; lia|].
  split.
  { intros k Hk. fold m in Hk. rewrite at_index_replicate by lia. split; [lia|congruence]. }
  split; [log_ok|].
  split; [constructor|]. intros k v Hin. vm_compute in Hin. inversion Hin.
Qed.

Lemma fill_inv_good_suffix_table (pattern : list byte) (n : Z)
    (gs1 : list Z) (st : gs_state) (l : list event) :
  fill_inv pattern n gs1 st l -> gs_i st = len pattern + 1 ->
  case1_done pattern gs1 0 -> shifts_sound pattern gs1 1 ->
  good_suffix_table pattern (goodSuffixShifts st).
Proof.
  set (m := len pattern).
  intros (Hi & Hlgs & Hlbp & Hknown & Hnext & Hfilled & Hrest & Hlog & Hwo)
         Hend Hdone Hsound.
  pose proof (len_nonneg pattern) as Hm. fold m in Hm, Hlgs.
  split; [exact Hlgs|]. split.
  { destruct (Hfilled 0) as [[Hnz _]|[_ (Hb & _ & Hl)]]; [lia| |].
    - destruct (Hsound 0) as [H0 Hs]; [fold m; lia|]. specialize (Hs Hnz). lia.
    - split; [exact Hb|]. intros b' Hb'. apply Hl; [exact Hb'|].
      destruct Hb'. lia. }
  intros k Hk. fold m in Hk.
  assert (Hcase1 : forall d, 1 <= d -> d <= k - 1 -> candidate pattern k d ->
                     at_index gs1 k ≠ 0 /\ at_index gs1 k <= d).
  { intros d Hd Hdk [Hsuf Hmis].
    destruct (Hdone (k - d) k) as [Hnz Hle]; [fold m; lia| |split; [exact Hnz|lia]].
    split; [exact (proj2 Hk)|]. split.
    - split; [lia|]. intros q Hq.
      replace (q - (k - (k - d))) with (q - d) by lia. apply Hsuf; lia.
    - replace (k - d - 1) with (k - 1 - d) by lia. apply Hmis; lia. }
  destruct (Hfilled k) as [[Hnz Heq]|[Hz (Hb & Hge & Hl)]]; [lia| |].
  - (* a shift of case 1 *)
    rewrite Heq. destruct (Hsound k) as [H0 Hs]; [fold m; lia|].
    specialize (Hs Hnz). split; [lia|].
    intros d Hd Hc. destruct (Hcase1 d) as [_ Hle]; [lia|lia|exact Hc|lia].
  - (* a shift of case 2 *)
    pose proof Hb as [Hpos _]. split.
    + split; [lia|]. apply Hl; [|lia]. apply border_beyond; fold m; lia.
    + intros d Hd Hc. destruct (Z.le_gt_cases d (k - 1)) as [Hdk|Hdk].
      * destruct (Hcase1 d) as [Hnz _]; [lia|lia|exact Hc|congruence].
      * assert (Hb' : border pattern 0 d).
        { split; [lia|]. intros q Hq. replace (q - (d - 0)) with (q - d) by lia.
          apply Hc; lia. }
        apply Hl in Hb'; lia.
Qed.

Lemma precomputeGoodSuffixTable_spec (pattern : list byte) (n : Z) :
  exists G l,
    precomputeGoodSuffixTable pattern = Ok G l /\
    good_suffix_table pattern G /\
    Forall (access_ok n (len pattern)) l /\ write_once G l.
Proof.
  unfold precomputeGoodSuffixTable.
  set (m := len pattern). set (fuel := S (S (length pattern))).
  pose proof (len_nonneg pattern) as Hm. fold m in Hm.
  rewrite write_ok by (rewrite len_replicate; lia). simpl.
  destruct (border_pass_spec pattern n fuel _ _ (border_inv_init pattern n))
    as (st1 & l1 & Hrun1 & Hinv1 & Hi1); [unfold fuel; lia|].
  fold m in Hrun1. rewrite Hrun1. simpl.
  pose proof Hinv1 as (_ & Hlgs & Hlbp & Hj & Hknown & Hdone & Hsound & Hlog & Hwo).
  rewrite Hi1 in Hknown, Hdone, Hsound. fold m in Hlgs, Hlbp, Hlog.
  rewrite read_ok by lia. simpl.
  edestruct (fill_pass_spec pattern n fuel
               {| goodSuffixShifts := goodSuffixShifts st1;
                  borderPos := borderPos st1; gs_i := 0;
                  gs_j := at_index (borderPos st1) 0 |})
    as (st2 & l2 & Hrun2 & Hinv2 & Hi2); [|unfold fuel; lia|].
  { unfold fill_inv; simpl. fold m.
    split; [lia|]. split; [exact Hlgs|]. split; [exact Hlbp|]. split; [exact Hknown|].
    split.
    { destruct (Hknown 0) as [Hb Hl]; [fold m; lia|]. split; [exact Hb|].
      destruct Hb as [Hpos _]. split; [lia|]. intros b' Hb' _. now apply Hl. }
    split; [intros k Hk; lia|]. split; [reflexivity|].
    split; [|eapply write_once_same; [|exact Hwo]].
    - instantiate (1 := (Write BorderPos m (m + 1) :: l1) ++ [Read BorderPos 0]).
      simpl in Hlog. log_ok.
    - writes_eq. }
  fold m in Hrun2. rewrite Hrun2. simpl.
  eexists _, _. split; [reflexivity|].
  simpl in Hinv2.
  split; [eapply fill_inv_good_suffix_table; eauto|].
  destruct Hinv2 as (_ & _ & _ & _ & _ & _ & _ & Hlog2 & Hwo2).
  split.
  - rewrite app_nil_r. rewrite <- app_assoc in Hlog2. exact Hlog2.
  - eapply write_once_same; [|exact Hwo2]. writes_eq.
Qed.

(** ** Slices of strings and positions *)

Lemma list_eq_total (l1 l2 : list byte) :
  l1 = l2 <->
  length l1 = length l2 /\
  forall q, (q < length l1)%nat -> l1 !!! q = l2 !!! q.
Proof.
  split; [intros ->; auto|]. intros [Hlen Hq].
  apply list_eq. intros q. destruct (decide (q < length l1)%nat) as [Hlt|Hge].
  - rewrite !list_lookup_lookup_total_lt by lia. f_equal. now apply Hq.
  - rewrite !(proj2 (lookup_ge_None _ _)) by lia. reflexivity.
Qed.

Lemma is_border_spec (p : list byte) (j : Z) :
  0 < j <= len p ->
  is_border p (Z.to_nat (len p - j)) = true <-> border p 0 j.
Proof.
  intros Hj. unfold is_border, border, len in *.
  set (b := Z.to_nat (Z.of_nat (length p) - j)).
  assert (Hb : (length p - b = Z.to_nat j)%nat) by lia.
  rewrite andb_true_iff, Nat.ltb_lt, bool_decide_eq_true, list_eq_total.
  rewrite length_take, length_drop, Hb.
  split.
  - intros (_ & _ & Hq). split; [lia|]. intros q Hrange.
    specialize (Hq (Z.to_nat (q - j))).
    rewrite lookup_total_take_lt, lookup_total_drop in Hq by lia.
    unfold at_index. replace (q - (j - 0)) with (q - j) by lia.
    rewrite Hq by lia. f_equal. lia.
  - intros [_ Hq]. split; [lia|]. split; [lia|]. intros q Hlt.
    rewrite lookup_total_take_lt, lookup_total_drop by lia.
    specialize (Hq (j + Z.of_nat q)). unfold at_index in Hq.
    replace (Z.to_nat (j + Z.of_nat q - (j - 0))) with q in Hq by lia.
    rewrite Hq by lia. f_equal. lia.
Qed.

(** ** The claims about the good-suffix table *)

(** C2. For a nonempty pattern of length [m] below [INT_MAX] the construction
    completes with a table of [m + 1] entries, each between [1] and [m]; entry
    [0] is [m] minus the length of the widest border of the whole pattern,
    hence [m] when the pattern has no border but the empty one. *)
Theorem good_suffix_table_range (pattern : list byte) :
  1 <= len pattern -> len pattern < INT_MAX ->
  exists G l,
    precomputeGoodSuffixTable pattern = Ok G l /\
    len G = len pattern + 1 /\
    (forall k, 0 <= k <= len pattern -> 1 <= at_index G k <= len pattern) /\
    (exists b : nat,
       is_border pattern b = true /\
       (forall b', is_border pattern b' = true -> (b' <= b)%nat) /\
       at_index G 0 = len pattern - Z.of_nat b) /\
    ((forall b', is_border pattern b' = true -> b' = 0%nat) ->
     at_index G 0 = len pattern).
Proof.
  intros Hm _.
  destruct (precomputeGoodSuffixTable_spec pattern 0)
    as (G & l & Hrun & (Hlen & Hzero & Hslots) & _ & _).
  exists G, l. split; [exact Hrun|]. split; [exact Hlen|].
  assert (Hrange : forall k, 0 <= k <= len pattern -> 1 <= at_index G k <= len pattern).
  { intros k Hk. destruct (Hslots k Hk) as [Hr _]. lia. }
  pose proof (Hrange 0 ltac:(lia)) as H0.
  assert (Hwide : is_border pattern (Z.to_nat (len pattern - at_index G 0)) = true /\
                  forall b', is_border pattern b' = true ->
                             (b' <= Z.to_nat (len pattern - at_index G 0))%nat).
  { destruct Hzero as [Hb Hleast]. split.
    - apply is_border_spec; [lia|exact Hb].
    - intros b' Hb'. pose proof Hb' as Hlt.
      unfold is_border in Hlt. apply andb_true_iff in Hlt as [Hlt _].
      apply Nat.ltb_lt in Hlt. unfold len in *.
      replace b' with (Z.to_nat (len pattern - (len pattern - Z.of_nat b'))) in Hb'
        by (unfold len; lia).
      apply is_border_spec in Hb'; [|unfold len; lia].
      apply Hleast in Hb'. unfold len in Hb'. lia. }
  split; [exact Hrange|]. split.
  - exists (Z.to_nat (len pattern - at_index G 0)).
    split; [apply Hwide|]. split; [apply Hwide|]. lia.
  - intros Hnone. destruct Hwide as [Hb _]. apply Hnone in Hb. lia.
Qed.

Lemma good_suffix_table_range_witness :
  1 <= len [x41; x42; x41] /\ len [x41; x42; x41] < INT_MAX /\
  exists G l,
    precomputeGoodSuffixTable [x41; x42; x41] = Ok G l /\
    len G = len [x41; x42; x41] + 1 /\
    (forall k, 0 <= k <= len [x41; x42; x41] ->
               1 <= at_index G k <= len [x41; x42; x41]) /\
    (exists b : nat,
       is_border [x41; x42; x41] b = true /\
       (forall b', is_border [x41; x42; x41] b' = true -> (b' <= b)%nat) /\
       at_index G 0 = len [x41; x42; x41] - Z.of_nat b) /\
    ((forall b', is_border [x41; x42; x41] b' = true -> b' = 0%nat) ->
     at_index G 0 = len [x41; x42; x41]).
Proof.
  split; [vm_compute; discriminate|]. split; [vm_compute; reflexivity|].
  apply (good_suffix_table_range [x41; x42; x41]);
    [vm_compute; discriminate|vm_compute; reflexivity].
Defined.

Lemma slot_value_snoc (l : list event) (e : event) (k : Z) :
  slot_value (l ++ [e]) k
  = match e with
    | Write GoodSuffixShifts k' v => if k' =? k then v else slot_value l k
    | _ => slot_value l k
    end.
Proof. unfold slot_value. rewrite fold_left_app. reflexivity. Qed.

Lemma slot_value_unwritten (l : list event) (k : Z) :
  k ∉ (fst <$> gs_writes l) -> slot_value l k = 0.
Proof.
  induction l as [|e l IH] using rev_ind; intros Hk; [reflexivity|].
  rewrite slot_value_snoc. rewrite gs_writes_app, fmap_app in Hk.
  apply not_elem_of_app in Hk as [Hl He]. specialize (IH Hl).
  destruct e as [| [] k' v | | | | | | | |]; try exact IH.
  destruct (Z.eqb_spec k' k) as [->|_]; [|exact IH].
  exfalso. apply He. simpl. left.
Qed.

(** C9. On a pattern shorter than [INT_MAX], each slot of the shift table is
    written at most once during the construction: wherever the trace has a
    write to a slot, the slot still holds the zero placeholder at that point,
    the value written is not zero, no later write goes to the same slot, and
    the slot holds that value when the construction is over. *)
Theorem good_suffix_slots_written_once (pattern : list byte) :
  len pattern < INT_MAX ->
  exists G l,
    precomputeGoodSuffixTable pattern = Ok G l /\
    NoDup (fst <$> gs_writes l) /\
    forall l1 l2 k v,
      l = l1 ++ Write GoodSuffixShifts k v :: l2 ->
      slot_value l1 k = 0 /\ v ≠ 0 /\
      (forall v', ~ In (Write GoodSuffixShifts k v') l2) /\
      at_index G k = v.
Proof.
  intros _.
  destruct (precomputeGoodSuffixTable_spec pattern 0)
    as (G & l & Hrun & _ & _ & Hnd & Hval).
  exists G, l. split; [exact Hrun|]. split; [exact Hnd|].
  intros l1 l2 k v ->.
  rewrite gs_writes_app, gs_writes_cons in Hnd, Hval. simpl in Hnd, Hval.
  rewrite fmap_app in Hnd. simpl in Hnd.
  apply NoDup_app in Hnd as (_ & Hfresh & Hnd2).
  apply NoDup_cons in Hnd2 as [Hlater _].
  split.
  { apply slot_value_unwritten. intros Hin. apply (Hfresh k Hin). left. }
  destruct (Hval k v) as (_ & Hv & Heq).
  { apply elem_of_app. right. left. }
  split; [exact Hv|]. split; [|exact Heq].
  intros v' Hin. apply Hlater.
  apply list_elem_of_fmap. exists (k, v'). split; [reflexivity|].
  unfold gs_writes. apply list_elem_of_In, in_flat_map.
  exists (Write GoodSuffixShifts k v'). split; [exact Hin|]. simpl. now left.
Qed.

Lemma good_suffix_slots_written_once_witness :
  len [x41; x42; x41; x42; x41] < INT_MAX /\
  exists G l,
    precomputeGoodSuffixTable [x41; x42; x41; x42; x41] = Ok G l /\
    NoDup (fst <$> gs_writes l) /\
    forall l1 l2 k v,
      l = l1 ++ Write GoodSuffixShifts k v :: l2 ->
      slot_value l1 k = 0 /\ v ≠ 0 /\
      (forall v', ~ In (Write GoodSuffixShifts k v') l2) /\
      at_index G k = v.
Proof.
  split; [vm_compute; reflexivity|].
  apply (good_suffix_slots_written_once [x41; x42; x41; x42; x41]).
  vm_compute; reflexivity.
Defined.

(** C10. For the empty pattern the construction returns the one-entry table
    [[1]]. *)
Theorem good_suffix_table_empty_pattern :
  exists l, precomputeGoodSuffixTable [] = Ok [1] l.
Proof. eexists. reflexivity. Qed.

(** ** Occurrences *)

Lemma occurs_at_spec (t p : list byte) (i : nat) :
  1 <= len p ->
  occurs_at t p i = true <-> occurrence t p (Z.of_nat i).
Proof.
  unfold occurs_at, occurrence, len, at_index. intros Hp.
  rewrite bool_decide_eq_true, list_eq_total, length_take, length_drop.
  split.
  - intros [Hlen Hq]. split; [lia|]. split; [lia|]. intros q Hrange.
    specialize (Hq (Z.to_nat q)).
    rewrite lookup_total_take_lt, lookup_total_drop in Hq by lia.
    rewrite <- Hq by lia. f_equal. lia.
  - intros (_ & Hlen & Hq). split; [lia|]. intros q Hlt.
    rewrite lookup_total_take_lt, lookup_total_drop by lia.
    specialize (Hq (Z.of_nat q)).
    replace (Z.to_nat (Z.of_nat q)) with q in Hq by lia.
    rewrite <- Hq by lia. f_equal. lia.
Qed.

Lemma occurs_at_false (t p : list byte) (i : nat) :
  1 <= len p ->
  occurs_at t p i = false <-> ~ occurrence t p (Z.of_nat i).
Proof.
  intros Hp. rewrite <- occurs_at_spec by exact Hp. destruct (occurs_at t p i); split; congruence.
Qed.

(** ** The comparison loop *)

Lemma compare_spec (text pattern : list byte) (s : Z) :
  0 <= s -> s + len pattern <= len text ->
  exists j lc,
    compare text pattern s (S (length pattern)) (len pattern - 1) = Ok j lc /\
    compare_inv text pattern s j lc /\
    (0 <= j -> at_index pattern j ≠ at_index text (s + j)).
Proof.
  intros Hs Hfit. unfold compare.
  set (m := len pattern) in *. set (n := len text) in *.
  pose proof (len_nonneg pattern) as Hm. fold m in Hm.
  apply (loop_rule (compare_inv text pattern s)
           (fun j l => compare_inv text pattern s j l /\
                       (0 <= j -> at_index pattern j ≠ at_index text (s + j)))
           (fun j => Z.to_nat (j + 1)) _) with (l := []).
  - intros j l (Hj & Hmatched & Hlog). fold m in Hj, Hmatched. fold m n in Hlog.
    destruct (Z.leb_spec 0 j) as [Hpos|Hneg].
    + rewrite !read_ok by (fold m n; lia). simpl.
      destruct (Byte.eqb (at_index pattern j) (at_index text (s + j))) eqn:Heqb.
      * apply byte_eqb_true in Heqb. eexists _, _. split; [reflexivity|].
        simpl. split; [|lia]. split; [fold m; lia|]. split.
        -- intros q Hq. fold m in Hq. destruct (decide (q = j)) as [->|Hne]; [exact Heqb|].
           apply Hmatched. lia.
        -- fold m n. log_ok.
      * apply byte_eqb_false in Heqb. eexists _, _. split; [reflexivity|].
        simpl. split; [|intros _; exact Heqb].
        split; [fold m; lia|]. split; [exact Hmatched|]. fold m n. log_ok.
    + eexists _, _. split; [reflexivity|]. simpl. rewrite app_nil_r.
      split; [|intros; lia]. split; [fold m; lia|]. split; assumption.
  - split; [fold m; lia|]. split; [intros q Hq; fold m in Hq; lia|constructor].
  - unfold m, len. lia.
Qed.

(** ** No occurrence is skipped *)

Lemma bad_char_no_skip (text pattern : list byte) (T : list Z) (s j d : Z) :
  (forall c, last_before pattern (len pattern) c (at_index T (uchar c))) ->
  0 <= j < len pattern ->
  1 <= d < Z.max 1 (j - at_index T (uchar (at_index text (s + j)))) ->
  ~ occurrence text pattern (s + d).
Proof.
  intros Hlast Hj Hd (_ & _ & Hocc).
  set (c := at_index text (s + j)) in *.
  assert (Hc : at_index pattern (j - d) = c).
  { destruct (Hlast c) as [[Hv _]|(Hv & _)];
      (rewrite <- Hocc by lia; unfold c; f_equal; lia). }
  destruct (Hlast c) as [[Hv Hno]|(Hv & _ & Hno)].
  - apply (Hno (j - d)); [lia|exact Hc].
  - apply (Hno (j - d)); [lia|exact Hc].
Qed.

Lemma good_suffix_no_skip (text pattern : list byte) (G : list Z) (s k d : Z) :
  good_suffix_table pattern G -> 0 <= k <= len pattern ->
  (forall q, k <= q < len pattern -> at_index pattern q = at_index text (s + q)) ->
  (1 <= k -> at_index pattern (k - 1) ≠ at_index text (s + (k - 1))) ->
  1 <= d < at_index G k ->
  ~ occurrence text pattern (s + d).
Proof.
  intros (_ & _ & Hslots) Hk Hmatched Hmis Hd (_ & _ & Hocc).
  destruct (Hslots k Hk) as [_ Hsafe]. apply (Hsafe d Hd). split.
  - intros q Hq Hdq. rewrite (Hmatched q Hq), <- Hocc by lia. f_equal. lia.
  - intros Hk1 Hdk Heq. apply (Hmis Hk1).
    rewrite <- Heq, <- Hocc by lia. f_equal. lia.
Qed.

(** ** One alignment step *)

Lemma alignments_app (l1 l2 : list event) :
  alignments (l1 ++ l2) = alignments l1 ++ alignments l2.
Proof. unfold alignments. apply flat_map_app. Qed.

Lemma alignments_cons (e : event) (l : list event) :
  alignments (e :: l) = alignment_of e ++ alignments l.
Proof. reflexivity. Qed.

Lemma alignments_nil : alignments [] = [].
Proof. reflexivity. Qed.

Lemma access_ok_in_bounds (n m : Z) (l : list event) :
  Forall (access_ok n m) l -> Forall (in_bounds n m) l.
Proof.
  intros H. eapply Forall_impl; [exact H|].
  intros e. destruct e; simpl; tauto.
Qed.

Lemma access_ok_alignments (n m : Z) (l : list event) :
  Forall (access_ok n m) l -> alignments l = [].
Proof.
  induction 1 as [|e l He _ IH]; [reflexivity|].
  rewrite alignments_cons, IH. destruct e; simpl in *; tauto.
Qed.

Ltac alignments_eq :=
  repeat first [rewrite alignments_app | rewrite alignments_cons
               | rewrite alignments_nil];
  simpl; repeat rewrite app_nil_r; try reflexivity.

(** The step after a full match. *)
Lemma search_step_match (text pattern : list byte) (T G : list Z)
    (st : search_state) (j : Z) (lc : list event) :
  let n := len text in
  let m := len pattern in
  compare text pattern (shift st) (S (length pattern)) (m - 1) = Ok j lc ->
  j < 0 -> 0 < len G ->
  exists l,
    search_step text pattern n m T G st
    = Ok {| shift := shift st + at_index G 0;
            matchedIndex := matchedIndex st ++ [shift st];
            found := true;
            totalSkippedChars :=
              (if (1 <? at_index G 0) && (shift st + at_index G 0 <=? n - m)
               then totalSkippedChars st + (at_index G 0 - 1)
               else totalSkippedChars st);
            step := step st + 1 |} l /\
    In (PrintFound (shift st)) l /\
    (Forall (access_ok n m) lc ->
     Forall (in_bounds n m) l /\ alignments l = [shift st]).
Proof.
  intros n m Hcmp Hj HG. unfold search_step. fold m.
  rewrite Hcmp. simpl.
  destruct (Z.ltb_spec j 0) as [_|]; [|lia].
  rewrite read_ok by lia. simpl.
  destruct (at_index G 0 + shift st <=? n - m); simpl;
    destruct (shift st + at_index G 0 <=? n - m); simpl;
    (eexists; split; [reflexivity|]; split;
     [apply in_cons, in_or_app; right; simpl; auto|];
     intros Hlc; pose proof (access_ok_in_bounds _ _ _ Hlc);
     pose proof (access_ok_alignments _ _ _ Hlc) as Hal; split;
     [log_ok; pose proof (len_nonneg pattern); fold m; lia
     | alignments_eq; rewrite Hal; reflexivity]).
Qed.

(** The step after a mismatch at [j]. *)
Lemma search_step_mismatch (text pattern : list byte) (T G : list Z)
    (st : search_state) (j : Z) (lc : list event) :
  let n := len text in
  let m := len pattern in
  let badCharShift :=
    Z.max 1 (j - at_index T (uchar (at_index text (shift st + j)))) in
  let goodSuffixShift := at_index G (j + 1) in
  let finalShift := Z.max badCharShift goodSuffixShift in
  compare text pattern (shift st) (S (length pattern)) (m - 1) = Ok j lc ->
  0 <= j < m -> 0 <= shift st -> shift st + m <= n ->
  len T = NUM_CHARS -> len G = m + 1 ->
  exists l,
    search_step text pattern n m T G st
    = Ok {| shift := shift st + finalShift;
            matchedIndex := matchedIndex st;
            found := found st;
            totalSkippedChars :=
              (if (1 <? finalShift) && (shift st + finalShift <=? n - m)
               then totalSkippedChars st + (finalShift - 1)
               else totalSkippedChars st);
            step := step st + 1 |} l /\
    In (PrintShiftDetails badCharShift goodSuffixShift
          (if badCharShift >=? goodSuffixShift then BadCharacter else GoodSuffix)
          finalShift) l /\
    (Forall (access_ok n m) lc ->
     Forall (in_bounds n m) l /\ alignments l = [shift st]).
Proof.
  intros n m bc gs final Hcmp Hj Hs Hfit HT HG. unfold search_step. fold m.
  rewrite Hcmp. simpl.
  destruct (Z.ltb_spec j 0) as [|_]; [lia|].
  pose proof (uchar_range (at_index text (shift st + j))) as Hu.
  repeat (rewrite read_ok by (fold n; unfold NUM_CHARS in *; lia); simpl).
  fold bc gs final.
  destruct (shift st + final <=? n - m); simpl;
    (eexists; split; [reflexivity|]; split;
     [apply in_cons, in_or_app; right; simpl; auto|];
     intros Hlc; pose proof (access_ok_in_bounds _ _ _ Hlc);
     pose proof (access_ok_alignments _ _ _ Hlc) as Hal; split;
     [log_ok; unfold NUM_CHARS; fold n m; lia
     | alignments_eq; rewrite Hal; reflexivity]).
Qed.

(** ** The search loop *)

Lemma filter_none {A} (P : A -> Prop) `{forall x, Decision (P x)} (l : list A) :
  (forall x, x ∈ l -> ~ P x) -> filter P l = [].
Proof.
  induction l as [|x l IH]; intros Hno; [reflexivity|].
  rewrite filter_cons_False by (apply Hno; left).
  apply IH. intros y Hy. apply Hno. now right.
Qed.

Lemma occurrences_step (text pattern : list byte) (s f : Z) :
  1 <= len pattern -> 0 <= s -> 1 <= f ->
  (forall d, 1 <= d < f -> ~ occurrence text pattern (s + d)) ->
  filter (fun i => occurs_at text pattern i = true) (seq 0 (Z.to_nat (s + f)))
  = filter (fun i => occurs_at text pattern i = true) (seq 0 (Z.to_nat s))
    ++ (if occurs_at text pattern (Z.to_nat s) then [Z.to_nat s] else []).
Proof.
  intros Hp Hs Hf Hskip.
  replace (Z.to_nat (s + f)) with (Z.to_nat s + S (Z.to_nat (f - 1)))%nat by lia.
  rewrite seq_app, filter_app. f_equal. simpl.
  rewrite filter_cons.
  rewrite (filter_none _ (seq (S (Z.to_nat s)) (Z.to_nat (f - 1)))).
  - destruct (occurs_at text pattern (Z.to_nat s)); reflexivity.
  - intros i Hi. apply list_elem_of_In, in_seq in Hi.
    apply not_true_iff_false, occurs_at_false; [exact Hp|].
    replace (Z.of_nat i) with (s + (Z.of_nat i - s)) by lia.
    apply Hskip. lia.
Qed.

Lemma sorted_snoc (l : list Z) (x : Z) :
  StronglySorted Z.lt l -> (forall y, y ∈ l -> y < x) ->
  StronglySorted Z.lt (l ++ [x]).
Proof.
  intros Hl Hlt. apply StronglySorted_app_2; [|exact Hl|repeat constructor].
  intros x1 x2 H1 H2. apply list_elem_of_singleton in H2. subst. now apply Hlt.
Qed.

Lemma search_step_spec (text pattern : list byte) (T G : list Z)
    (st : search_state) (l : list event) :
  let n := len text in
  let m := len pattern in
  1 <= m ->
  len T = NUM_CHARS ->
  (forall c, last_before pattern m c (at_index T (uchar c))) ->
  good_suffix_table pattern G ->
  search_inv text pattern st l -> shift st <= n - m ->
  exists st' lb,
    search_step text pattern n m T G st = Ok st' lb /\
    search_inv text pattern st' (l ++ lb) /\
    shift st < shift st'.
Proof.
  intros n m Hm HT Hlast HGspec
         (Hs & Hmatched & Hsorted & Hbelow & Hcount & Hmsorted & Hmbelow & Hlog) Hfit.
  fold n m in Hcount, Hlog.
  destruct (compare_spec text pattern (shift st)) as (j & lc & Hcmp & Hcinv & Hmis);
    [lia|fold n m; lia|].
  destruct Hcinv as (Hj & Heq & Hlc). fold m in Hcmp, Hj, Heq. fold n m in Hlc.
  pose proof HGspec as (HG & _ & Hslots).
  assert (Hocc : 0 <= j \/ occurrence text pattern (shift st)).
  { destruct (Z.le_gt_cases 0 j) as [|Hneg]; [now left|right].
    split; [lia|]. split; [fold n m; lia|]. intros q Hq. symmetry. apply Heq. fold m in Hq. lia. }
  assert (Hnocc : 0 <= j -> ~ occurrence text pattern (shift st)).
  { intros Hpos (_ & _ & Hall). apply (Hmis Hpos). symmetry. apply Hall. fold m. lia. }
  assert (Hgen : forall st' lb f,
    search_step text pattern n m T G st = Ok st' lb ->
    shift st' = shift st + f -> 1 <= f ->
    (forall d, 1 <= d < f -> ~ occurrence text pattern (shift st + d)) ->
    matchedIndex st' = matchedIndex st
      ++ (if occurs_at text pattern (Z.to_nat (shift st)) then [shift st] else []) ->
    Forall (in_bounds n m) lb -> alignments lb = [shift st] ->
    exists st' lb,
      search_step text pattern n m T G st = Ok st' lb /\
      search_inv text pattern st' (l ++ lb) /\
      shift st < shift st').
  { intros st' lb f Hrun Hshift Hf Hskip Hm' Hlb Hal.
    exists st', lb. split; [exact Hrun|]. split; [|lia].
    unfold search_inv. fold n m. rewrite Hshift, alignments_app, Hal.
    split; [lia|]. split.
    { rewrite occurrences_step by (fold m; assumption || lia).
      rewrite fmap_app, <- Hmatched, Hm'. f_equal.
      destruct (occurs_at text pattern (Z.to_nat (shift st))); simpl; [|reflexivity].
      f_equal. lia. }
    split; [apply sorted_snoc; [exact Hsorted|intros y Hy; apply Hbelow in Hy; lia]|].
    split.
    { intros s Hin. apply elem_of_app in Hin as [Hin|Hin].
      - apply Hbelow in Hin. lia.
      - apply list_elem_of_singleton in Hin. lia. }
    split; [rewrite length_app; simpl; lia|].
    rewrite Hm'. split; [|split].
    - destruct (occurs_at text pattern (Z.to_nat (shift st)));
        [|now rewrite app_nil_r].
      apply sorted_snoc; [exact Hmsorted|exact Hmbelow].
    - intros s Hin. apply elem_of_app in Hin as [Hin|Hin].
      + apply Hmbelow in Hin. lia.
      + destruct (occurs_at text pattern (Z.to_nat (shift st))); [|inversion Hin].
        apply list_elem_of_singleton in Hin. lia.
    - apply Forall_app. split; assumption. }
  destruct (Z.le_gt_cases 0 j) as [Hpos|Hneg].
  - (* mismatch at [j] *)
    destruct (search_step_mismatch text pattern T G st j lc Hcmp)
      as (lb & Hrun & _ & Hlb); [fold m; lia|lia|fold n m; lia|exact HT|exact HG|].
    fold n m in Hrun, Hlb. destruct (Hlb Hlc) as [Hlb1 Hlb2].
    eapply Hgen; [exact Hrun|reflexivity|lia| | |exact Hlb1|exact Hlb2].
    + intros d Hd.
      destruct (Z.lt_ge_cases d (at_index G (j + 1))) as [Hgs|Hgs].
      * apply (good_suffix_no_skip text pattern G (shift st) (j + 1) d HGspec);
          [fold m; lia| | |lia].
        -- intros q Hq. apply Heq. fold m in Hq. lia.
        -- intros _. replace (j + 1 - 1) with j by lia. apply Hmis. lia.
      * apply (bad_char_no_skip text pattern T (shift st) j d Hlast); [fold m; lia|lia].
    + simpl. apply Hnocc in Hpos.
      replace (shift st) with (Z.of_nat (Z.to_nat (shift st))) in Hpos by lia.
      apply occurs_at_false in Hpos; [|fold m; lia].
      rewrite Hpos. now rewrite app_nil_r.
  - (* full match *)
    destruct Hocc as [|Hocc]; [lia|].
    destruct (search_step_match text pattern T G st j lc Hcmp)
      as (lb & Hrun & _ & Hlb); [lia|lia|].
    fold n m in Hrun, Hlb. destruct (Hlb Hlc) as [Hlb1 Hlb2].
    destruct (Hslots 0) as [Hrange _]; [fold m; lia|].
    eapply Hgen; [exact Hrun|reflexivity|lia| | |exact Hlb1|exact Hlb2].
    + intros d Hd.
      apply (good_suffix_no_skip text pattern G (shift st) 0 d HGspec);
        [fold m; lia| |lia|lia].
      intros q Hq. apply Heq. fold m in Hq. lia.
    + simpl.
      replace (occurs_at text pattern (Z.to_nat (shift st))) with true; [reflexivity|].
      symmetry. apply occurs_at_spec; [fold m; lia|]. now rewrite Z2Nat.id by lia.
Qed.

(** ** The whole search *)

Lemma occurrences_beyond (text pattern : list byte) (k : nat) :
  1 <= len pattern -> len pattern <= len text ->
  (Z.to_nat (len text - len pattern + 1) <= k)%nat ->
  filter (fun i => occurs_at text pattern i = true) (seq 0 k)
  = filter (fun i => occurs_at text pattern i = true)
      (seq 0 (Z.to_nat (len text - len pattern + 1))).
Proof.
  intros Hp Hfit Hk.
  replace k with (Z.to_nat (len text - len pattern + 1)
                  + (k - Z.to_nat (len text - len pattern + 1)))%nat at 1 by lia.
  rewrite seq_app, filter_app, (filter_none _ (seq (0 + _) _)); [apply app_nil_r|].
  intros i Hi. apply list_elem_of_In, in_seq in Hi.
  apply not_true_iff_false, occurs_at_false; [exact Hp|].
  intros (_ & Hin & _). lia.
Qed.

Lemma searchBoyerMoore_spec (text pattern : list byte) :
  let n := len text in
  let m := len pattern in
  1 <= m <= n ->
  exists st l,
    searchBoyerMoore text pattern = Ok (Searched st) l /\
    matchedIndex st = naive_search text pattern /\
    StronglySorted Z.lt (alignments l) /\
    Z.of_nat (length (alignments l)) <= n - m + 1 /\
    StronglySorted Z.lt (matchedIndex st) /\
    Forall (in_bounds n m) l.
Proof.
  intros n m Hm. unfold searchBoyerMoore. fold n m.
  destruct (Z.eqb_spec m 0) as [|_]; [lia|].
  destruct (Z.ltb_spec n m) as [|_]; [lia|]. simpl.
  destruct (precomputeBadCharacterTable_spec pattern n)
    as (T & lT & HrunT & HT & Hlast & HlT).
  destruct (precomputeGoodSuffixTable_spec pattern n)
    as (G & lG & HrunG & HG & HlG & _).
  fold m in Hlast, HlT, HlG. rewrite HrunT, HrunG. simpl.
  edestruct (while_rule (search_inv text pattern)
               (fun st l => search_inv text pattern st l /\ n - m < shift st)
               (fun st => Z.to_nat (n - m + 1 - shift st)))
    as (st & l & Hrun & Hinv & Hend); cycle 1.
  - instantiate (1 := []).
    instantiate (1 := {| shift := 0; matchedIndex := []; found := false;
                         totalSkippedChars := 0; step := 1 |}).
    unfold search_inv; simpl. fold n m.
    split; [lia|]. split; [reflexivity|]. split; [constructor|].
    split; [intros s Hs; inversion Hs|]. split; [lia|]. split; [constructor|].
    split; [intros s Hs; inversion Hs|constructor].
  - instantiate (1 := S (Z.to_nat (n - m + 1))). simpl. lia.
  - rewrite Hrun. simpl. simpl in Hinv.
    destruct Hinv as (Hs & Hmatched & Hsorted & _ & Hcount & Hmsorted & _ & Hlog).
    fold n m in Hcount, Hlog.
    assert (Hnaive : matchedIndex st = naive_search text pattern).
    { rewrite Hmatched. unfold naive_search. f_equal.
      rewrite (occurrences_beyond text pattern (Z.to_nat (shift st)))
        by (fold n m; lia).
      rewrite (occurrences_beyond text pattern (S (length text)))
        by (unfold n, m, len in *; lia).
      reflexivity. }
    pose proof (access_ok_alignments _ _ _ HlT) as HaT.
    pose proof (access_ok_alignments _ _ _ HlG) as HaG.
    apply access_ok_in_bounds in HlT, HlG.
    destruct (negb (found st)); simpl;
      (eexists _, _; split; [reflexivity|]; split; [exact Hnaive|];
       split; [alignments_eq; rewrite HaT, HaG; simpl; rewrite ?app_nil_r;
               exact Hsorted|];
       split; [alignments_eq; rewrite HaT, HaG; simpl; rewrite ?app_nil_r; lia|];
       split; [exact Hmsorted|log_ok]).
  - intros st l Hinv. exists (shift st <=? n - m), []. split; [reflexivity|].
    rewrite app_nil_r. destruct (Z.leb_spec (shift st) (n - m)) as [Hle|Hgt].
    + destruct (search_step_spec text pattern T G st l)
        as (st' & lb & Hstep & Hinv' & Hlt); try assumption; [fold m; lia|].
      fold n m in Hstep. exists st', lb. split; [exact Hstep|].
      split; [exact Hinv'|lia].
    + split; [exact Hinv|lia].
Qed.

(** ** The claims about the search *)

(** C1. For a pattern of length at least 1 and at most the length of the text,
    and a text shorter than [INT_MAX], the search completes and the offsets it
    has recorded are, in order, the offsets found by the reference scan: all
    [i] with [t[i : i + len p] == p], ascending, overlapping occurrences
    included. *)
Theorem search_agrees_with_naive_scan (text pattern : list byte) :
  1 <= len pattern -> len pattern <= len text -> len text < INT_MAX ->
  exists o l,
    searchBoyerMoore text pattern = Ok o l /\
    matches o = naive_search text pattern.
Proof.
  intros Hm Hn _.
  destruct (searchBoyerMoore_spec text pattern) as (st & l & Hrun & Hnaive & _); [lia|].
  exists (Searched st), l. split; [exact Hrun|exact Hnaive].
Qed.

Lemma search_agrees_with_naive_scan_witness :
  1 <= len [x41; x41] /\ len [x41; x41] <= len [x41; x41; x41; x41] /\
  len [x41; x41; x41; x41] < INT_MAX /\
  exists o l,
    searchBoyerMoore [x41; x41; x41; x41] [x41; x41] = Ok o l /\
    matches o = naive_search [x41; x41; x41; x41] [x41; x41].
Proof.
  split; [vm_compute; discriminate|]. split; [vm_compute; discriminate|].
  split; [vm_compute; reflexivity|].
  apply (search_agrees_with_naive_scan [x41; x41; x41; x41] [x41; x41]);
    [vm_compute; discriminate|vm_compute; discriminate|vm_compute; reflexivity].
Defined.

(** C3. For a nonempty pattern no longer than the text, and a text shorter
    than [INT_MAX], the search loop ends within the fuel of [n - m + 1]
    alignment steps; the alignment offsets it visits are strictly increasing,
    there are at most [n - m + 1] of them, and the recorded match offsets are
    strictly ascending. *)
Theorem alignments_strictly_increasing (text pattern : list byte) :
  1 <= len pattern -> len pattern <= len text -> len text < INT_MAX ->
  exists o l,
    searchBoyerMoore text pattern = Ok o l /\
    StronglySorted Z.lt (alignments l) /\
    Z.of_nat (length (alignments l)) <= len text - len pattern + 1 /\
    StronglySorted Z.lt (matches o).
Proof.
  intros Hm Hn _.
  destruct (searchBoyerMoore_spec text pattern)
    as (st & l & Hrun & _ & Hsorted & Hcount & Hmsorted & _); [lia|].
  exists (Searched st), l. auto.
Qed.

Lemma alignments_strictly_increasing_witness :
  1 <= len [x41; x42] /\
  len [x41; x42] <= len [x41; x41; x41; x41; x41; x41; x42] /\
  len [x41; x41; x41; x41; x41; x41; x42] < INT_MAX /\
  exists o l,
    searchBoyerMoore [x41; x41; x41; x41; x41; x41; x42] [x41; x42] = Ok o l /\
    StronglySorted Z.lt (alignments l) /\
    Z.of_nat (length (alignments l))
    <= len [x41; x41; x41; x41; x41; x41; x42] - len [x41; x42] + 1 /\
    StronglySorted Z.lt (matches o).
Proof.
  split; [vm_compute; discriminate|]. split; [vm_compute; discriminate|].
  split; [vm_compute; reflexivity|].
  apply (alignments_strictly_increasing
           [x41; x41; x41; x41; x41; x41; x42] [x41; x42]);
    [vm_compute; discriminate|vm_compute; discriminate|vm_compute; reflexivity].
Defined.

(** C4. At an alignment [s] where the comparison stops on a mismatch at
    pattern position [j], the step advances the alignment by
    [max (max 1 (j - badCharTable[text[s + j]])) goodSuffixShifts[j + 1]] and
    reports these two shifts; it credits the bad-character heuristic whenever
    its shift is at least the good-suffix shift, in particular on a tie, and
    the good-suffix heuristic otherwise.  The tables are any of the sizes the
    two constructions produce. *)
Theorem mismatch_shift (text pattern : list byte) (T G : list Z)
    (st : search_state) (j : Z) (lc : list event) :
  let n := len text in
  let m := len pattern in
  let badCharShift :=
    Z.max 1 (j - at_index T (uchar (at_index text (shift st + j)))) in
  let goodSuffixShift := at_index G (j + 1) in
  len T = 256 -> len G = m + 1 ->
  0 <= shift st -> shift st + m <= n ->
  compare text pattern (shift st) (S (length pattern)) (m - 1) = Ok j lc ->
  0 <= j ->
  exists st' l h,
    search_step text pattern n m T G st = Ok st' l /\
    shift st' = shift st + Z.max badCharShift goodSuffixShift /\
    In (PrintShiftDetails badCharShift goodSuffixShift h
          (Z.max badCharShift goodSuffixShift)) l /\
    (goodSuffixShift <= badCharShift -> h = BadCharacter) /\
    (badCharShift < goodSuffixShift -> h = GoodSuffix).
Proof.
  intros n m bc gs HT HG Hs Hfit Hcmp Hj.
  destruct (compare_spec text pattern (shift st))
    as (j' & lc' & Hcmp' & (Hj' & _) & _); [lia|fold n m; lia|].
  fold m in Hcmp', Hj'. rewrite Hcmp in Hcmp'. injection Hcmp' as <- <-.
  destruct (search_step_mismatch text pattern T G st j lc Hcmp)
    as (l & Hrun & Hin & _); [fold m; lia|lia|fold n m; lia|exact HT|exact HG|].
  fold n m bc gs in Hrun, Hin.
  eexists _, l, _. split; [exact Hrun|]. split; [reflexivity|].
  split; [exact Hin|].
  destruct (Z.geb_spec bc gs); split; intros; (reflexivity || lia).
Qed.

Lemma mismatch_shift_witness :
  let text := [x41; x41] in
  let pattern := [x41; x42] in
  let T := replicate 256 (-1) in
  let G := [2; 2; 1] in
  let st := {| shift := 0; matchedIndex := []; found := false;
               totalSkippedChars := 0; step := 1 |} in
  len T = 256 /\ len G = len pattern + 1 /\
  0 <= shift st /\ shift st + len pattern <= len text /\
  compare text pattern (shift st) (S (length pattern)) (len pattern - 1)
  = Ok 1 [Read Pattern 1; Read Text 1] /\
  0 <= 1 /\
  exists st' l h,
    search_step text pattern (len text) (len pattern) T G st = Ok st' l /\
    shift st' = shift st
                + Z.max (Z.max 1 (1 - at_index T (uchar (at_index text (shift st + 1)))))
                    (at_index G (1 + 1)) /\
    In (PrintShiftDetails
          (Z.max 1 (1 - at_index T (uchar (at_index text (shift st + 1)))))
          (at_index G (1 + 1)) h
          (Z.max (Z.max 1 (1 - at_index T (uchar (at_index text (shift st + 1)))))
             (at_index G (1 + 1)))) l /\
    (at_index G (1 + 1)
     <= Z.max 1 (1 - at_index T (uchar (at_index text (shift st + 1)))) ->
     h = BadCharacter) /\
    (Z.max 1 (1 - at_index T (uchar (at_index text (shift st + 1))))
     < at_index G (1 + 1) -> h = GoodSuffix).
Proof.
  intros text pattern T G st.
  split; [reflexivity|]. split; [reflexivity|].
  split; [vm_compute; discriminate|]. split; [vm_compute; discriminate|].
  split; [reflexivity|]. split; [lia|].
  apply (mismatch_shift text pattern T G st 1 [Read Pattern 1; Read Text 1]);
    try reflexivity; vm_compute; discriminate.
Defined.

(** C5. At an alignment [s] where the comparison runs through the whole
    pattern, the step records [s] as a match and advances the alignment by
    exactly [goodSuffixShifts[0]]; that shift is at least 1 and passes over no
    occurrence of the pattern, so overlapping occurrences are found: the
    search for "AA" in "AAAA" records the offsets 0, 1 and 2. *)
Theorem full_match_shift (text pattern : list byte) (T G : list Z)
    (st : search_state) (j : Z) (lc lG : list event) :
  let n := len text in
  let m := len pattern in
  precomputeGoodSuffixTable pattern = Ok G lG ->
  1 <= m -> 0 <= shift st -> shift st + m <= n ->
  compare text pattern (shift st) (S (length pattern)) (m - 1) = Ok j lc ->
  j < 0 ->
  (exists st' l,
     search_step text pattern n m T G st = Ok st' l /\
     occurrence text pattern (shift st) /\
     matchedIndex st' = matchedIndex st ++ [shift st] /\
     In (PrintFound (shift st)) l /\
     shift st' = shift st + at_index G 0 /\
     1 <= at_index G 0 /\
     forall s, shift st < s < shift st' -> ~ occurrence text pattern s) /\
  exists o l,
    searchBoyerMoore [x41; x41; x41; x41] [x41; x41] = Ok o l /\
    matches o = [0; 1; 2].
Proof.
  intros n m HrunG Hm Hs Hfit Hcmp Hj. split; [|eexists _, _; split; reflexivity].
  destruct (precomputeGoodSuffixTable_spec pattern n)
    as (G' & lG' & HrunG' & HGspec & _).
  rewrite HrunG in HrunG'. injection HrunG' as <- <-.
  pose proof HGspec as (HG & _ & Hslots). fold m in HG.
  destruct (Hslots 0) as [Hrange _]; [fold m; lia|].
  destruct (compare_spec text pattern (shift st))
    as (j' & lc' & Hcmp' & (Hj' & Heq & _) & _); [lia|fold n m; lia|].
  fold m in Hcmp', Hj', Heq. rewrite Hcmp in Hcmp'. injection Hcmp' as <- <-.
  destruct (search_step_match text pattern T G st j lc Hcmp)
    as (l & Hrun & Hin & _); [lia|lia|].
  fold n m in Hrun.
  eexists _, l. split; [exact Hrun|]. simpl.
  split.
  { split; [lia|]. split; [fold n m; lia|]. intros q Hq. symmetry. apply Heq.
    fold m in Hq. lia. }
  split; [reflexivity|]. split; [exact Hin|]. split; [reflexivity|].
  split; [lia|].
  intros s Hrange'. replace s with (shift st + (s - shift st)) by lia.
  apply (good_suffix_no_skip text pattern G (shift st) 0 _ HGspec);
    [fold m; lia| |lia|lia].
  intros q Hq. apply Heq. fold m in Hq. lia.
Qed.

Lemma full_match_shift_witness :
  let text := [x41; x41; x41; x41] in
  let pattern := [x41; x41] in
  let T := replicate 256 (-1) in
  let G := [1; 1; 2] in
  let lG := [Write BorderPos 2 3; Write BorderPos 1 2; Read Pattern 0;
             Read Pattern 1; Write BorderPos 0 1; Read BorderPos 0;
             Read GoodSuffixShifts 0; Write GoodSuffixShifts 0 1;
             Read GoodSuffixShifts 1; Write GoodSuffixShifts 1 1;
             Read BorderPos 1; Read GoodSuffixShifts 2;
             Write GoodSuffixShifts 2 2; Read BorderPos 2] in
  let lc := [Read Pattern 1; Read Text 1; Read Pattern 0; Read Text 0] in
  let st := {| shift := 0; matchedIndex := []; found := false;
               totalSkippedChars := 0; step := 1 |} in
  precomputeGoodSuffixTable pattern = Ok G lG /\
  1 <= len pattern /\ 0 <= shift st /\ shift st + len pattern <= len text /\
  compare text pattern (shift st) (S (length pattern)) (len pattern - 1)
  = Ok (-1) lc /\
  -1 < 0 /\
  (exists st' l,
     search_step text pattern (len text) (len pattern) T G st = Ok st' l /\
     occurrence text pattern (shift st) /\
     matchedIndex st' = matchedIndex st ++ [shift st] /\
     In (PrintFound (shift st)) l /\
     shift st' = shift st + at_index G 0 /\
     1 <= at_index G 0 /\
     forall s, shift st < s < shift st' -> ~ occurrence text pattern s) /\
  exists o l,
    searchBoyerMoore [x41; x41; x41; x41] [x41; x41] = Ok o l /\
    matches o = [0; 1; 2].
Proof.
  intros text pattern T G lG lc st.
  split; [reflexivity|]. split; [vm_compute; discriminate|].
  split; [vm_compute; discriminate|]. split; [vm_compute; discriminate|].
  split; [reflexivity|]. split; [lia|].
  apply (full_match_shift text pattern T G st (-1) lc lG);
    try reflexivity; vm_compute; discriminate.
Defined.

(** C7. When the pattern is empty or longer than the text, and both lengths
    fit in an [int], the search returns at once through its edge case: it
    reports the condition, touches neither string nor table, tries no
    alignment and records no match. *)
Theorem degenerate_input (text pattern : list byte) :
  len pattern = 0 \/ len text < len pattern ->
  len text <= INT_MAX -> len pattern <= INT_MAX ->
  searchBoyerMoore text pattern = Ok Degenerate [PrintDegenerate] /\
  matches Degenerate = [].
Proof.
  intros Hdeg _ _. split; [|reflexivity]. unfold searchBoyerMoore.
  destruct (Z.eqb_spec (len pattern) 0) as [|Hne]; [reflexivity|].
  destruct (Z.ltb_spec (len text) (len pattern)) as [|Hge]; [reflexivity|].
  lia.
Qed.

Lemma degenerate_input_witness :
  (len [x41; x42; x43] = 0 \/ len [x41; x42] < len [x41; x42; x43]) /\
  len [x41; x42] <= INT_MAX /\ len [x41; x42; x43] <= INT_MAX /\
  searchBoyerMoore [x41; x42] [x41; x42; x43] = Ok Degenerate [PrintDegenerate] /\
  matches Degenerate = [].
Proof.
  split; [right; reflexivity|].
  split; [vm_compute; discriminate|]. split; [vm_compute; discriminate|].
  apply (degenerate_input [x41; x42] [x41; x42; x43]);
    [right; reflexivity|vm_compute; discriminate|vm_compute; discriminate].
Defined.

(** C8. For a nonempty pattern no longer than the text, and a text shorter
    than [INT_MAX], the whole run completes without a fault, and every access
    it makes is within bounds: the pattern is indexed within [0, m - 1], the
    text within [0, n - 1], [goodSuffixShifts] and [borderPos] within [0, m]
    and [badCharTable] within [0, 255]. *)
Theorem accesses_in_bounds (text pattern : list byte) :
  1 <= len pattern -> len pattern <= len text -> len text < INT_MAX ->
  exists o l,
    searchBoyerMoore text pattern = Ok o l /\
    forall a i,
      (In (Read a i) l \/ exists v, In (Write a i v) l) ->
      0 <= i /\
      i <= match a with
           | Pattern => len pattern - 1
           | Text => len text - 1
           | BadCharTable => 255
           | GoodSuffixShifts => len pattern
           | BorderPos => len pattern
           end.
Proof.
  intros Hm Hn _.
  destruct (searchBoyerMoore_spec text pattern)
    as (st & l & Hrun & _ & _ & _ & _ & Hlog); [lia|].
  exists (Searched st), l. split; [exact Hrun|].
  rewrite Forall_forall in Hlog.
  intros a i [Hin|[v Hin]]; apply list_elem_of_In, Hlog in Hin; simpl in Hin;
    destruct a; simpl in Hin; unfold NUM_CHARS in Hin; lia.
Qed.

Lemma accesses_in_bounds_witness :
  1 <= len [x41; x42] /\
  len [x41; x42] <= len [x41; x41; x41; x41; x41; x41; x42] /\
  len [x41; x41; x41; x41; x41; x41; x42] < INT_MAX /\
  exists o l,
    searchBoyerMoore [x41; x41; x41; x41; x41; x41; x42] [x41; x42] = Ok o l /\
    forall a i,
      (In (Read a i) l \/ exists v, In (Write a i v) l) ->
      0 <= i /\
      i <= match a with
           | Pattern => len [x41; x42] - 1
           | Text => len [x41; x41; x41; x41; x41; x41; x42] - 1
           | BadCharTable => 255
           | GoodSuffixShifts => len [x41; x42]
           | BorderPos => len [x41; x42]
           end.
Proof.
  split; [vm_compute; discriminate|]. split; [vm_compute; discriminate|].
  split; [vm_compute; reflexivity|].
  apply (accesses_in_bounds [x41; x41; x41; x41; x41; x41; x42] [x41; x42]);
    [vm_compute; discriminate|vm_compute; discriminate|vm_compute; reflexivity].
Defined.

(** * Further properties of the code *)

(** ** The good-suffix table holds the least compatible shifts *)

Lemma set_if_unset_cases (gs : list Z) (j v : Z) :
  0 <= j < len gs ->
  exists gs' lw,
    (if at_index gs j =? 0 then write GoodSuffixShifts gs j v else ret gs)
    = Ok gs' lw /\
    (length lw <= 1)%nat /\ len gs' = len gs /\
    (forall k, 0 <= k -> k ≠ j -> at_index gs' k = at_index gs k) /\
    (at_index gs j ≠ 0 -> at_index gs' j = at_index gs j) /\
    (at_index gs j = 0 -> at_index gs' j = v).
Proof.
  intros Hj. destruct (Z.eqb_spec (at_index gs j) 0) as [Hz|Hnz].
  - rewrite write_ok by exact Hj. eexists _, _. split; [reflexivity|].
    split; [simpl; lia|]. split; [apply len_insert|].
    split; [intros k Hk Hne; apply at_index_insert_ne; lia|].
    split; [intros; congruence|]. intros _. now apply at_index_insert_eq.
  - exists gs, []. split; [reflexivity|]. split; [simpl; lia|].
    repeat split; intros; congruence.
Qed.

Lemma recorded_ok_update (pattern : list byte) (gs gs' : list Z) (i j : Z) :
  recorded_ok pattern gs -> 1 <= i -> mismatch_pair pattern i j ->
  (forall k, 0 <= k -> k ≠ j -> at_index gs' k = at_index gs k) ->
  (at_index gs j ≠ 0 -> at_index gs' j = at_index gs j) ->
  (at_index gs j = 0 -> at_index gs' j = j - i) ->
  recorded_ok pattern gs'.
Proof.
  intros Hrec Hi Hpair Hother Hkeep Hnew k Hk Hnz.
  destruct (decide (k = j)) as [->|Hne].
  - destruct (decide (at_index gs j = 0)) as [Hz|Hz].
    + rewrite Hnew by exact Hz. replace (j - (j - i)) with i by lia. auto.
    + rewrite Hkeep in * by exact Hz. now apply Hrec.
  - rewrite Hother in * by lia. now apply Hrec.
Qed.

Lemma border_chain_spec2 (pattern : list byte) (fuel : nat)
    (st0 : gs_state) (l : list event) :
  chain_inv2 pattern st0 st0 l -> (length pattern + 2 <= fuel)%nat ->
  exists st l',
    border_chain pattern (len pattern) fuel st0 = Ok st l' /\
    chain_inv2 pattern st0 st [] /\
    Z.of_nat (length (l ++ l'))
    <= border_budget (len pattern) (gs_i st0) (gs_j st) + 2 /\
    (gs_j st <= len pattern ->
     at_index pattern (gs_i st0 - 1) = at_index pattern (gs_j st - 1)).
Proof.
  intros H0 Hfuel. unfold border_chain.
  set (m := len pattern). set (i := gs_i st0).
  apply (while_rule (chain_inv2 pattern st0)
           (fun st l => chain_inv2 pattern st0 st [] /\
              Z.of_nat (length l) <= border_budget m i (gs_j st) + 2 /\
              (gs_j st <= m -> at_index pattern (i - 1) = at_index pattern (gs_j st - 1)))
           (fun st => Z.to_nat (m + 1 - gs_j st))); [|exact H0|].
  2:{ destruct H0 as (_ & _ & Hi & _ & _ & [Hlt _] & _).
      fold i in Hi, Hlt. unfold m, len. lia. }
  clear l H0. intros st l Hinv.
  pose proof Hinv as (Hgi & Hbp & Hi & Hlgs & Hlbp & Hbord & Hjm & Hlinks
                      & Hrec & Hlen).
  fold m in Hi, Hlgs, Hlbp, Hjm, Hlen. fold i in Hgi, Hi, Hbord, Hlinks, Hlen.
  pose proof Hbord as [Hij _].
  assert (Hnil : chain_inv2 pattern st0 st []).
  { unfold chain_inv2. fold m i. repeat (split; [assumption|]).
    unfold border_budget. simpl. lia. }
  destruct (Z.leb_spec (gs_j st) m) as [Hle|Hgt].
  2:{ exists false, []. split; [reflexivity|]. rewrite app_nil_r.
      split; [exact Hnil|]. split; [lia|]. intros; lia. }
  rewrite Hgi. fold i.
  rewrite !read_ok by (fold m; lia). simpl.
  eexists _, _. split; [reflexivity|].
  destruct (Byte.eqb (at_index pattern (i - 1)) (at_index pattern (gs_j st - 1))) eqn:Heqb;
    simpl.
  - apply byte_eqb_true in Heqb. split; [exact Hnil|]. split; [|intros _; exact Heqb].
    rewrite length_app. simpl. lia.
  - apply byte_eqb_false in Heqb.
    destruct (set_if_unset_cases (goodSuffixShifts st) (gs_j st) (gs_j st - i))
      as (gs' & lw & Hset & Hlw & Hlen' & Hother & Hkeep & Hnew); [lia|].
    rewrite Hset. simpl.
    eexists _, _. split; [reflexivity|].
    destruct (Hlinks (gs_j st)) as [Hnext Hbound]; [fold m; lia|]. fold m in Hbound.
    pose proof Hnext as [Hjj' _].
    split; [|simpl; lia].
    unfold chain_inv2; simpl. fold m i.
    split; [reflexivity|]. split; [exact Hbp|]. split; [lia|].
    split; [lia|]. split; [exact Hlbp|].
    split; [eapply border_trans; eauto|]. split; [exact Hbound|].
    split; [exact Hlinks|].
    split.
    { eapply (recorded_ok_update pattern _ gs' i (gs_j st)); eauto; [lia|].
      split; [exact Hle|]. split; assumption. }
    rewrite !length_app. simpl. rewrite length_app. simpl.
    unfold border_budget in *. lia.
Qed.

Lemma border_pass_spec2 (pattern : list byte) (fuel : nat)
    (st0 : gs_state) (l : list event) :
  border_inv2 pattern st0 l -> (length pattern + 2 <= fuel)%nat ->
  exists st l',
    border_pass pattern (len pattern) fuel st0 = Ok st l' /\
    border_inv2 pattern st (l ++ l') /\ gs_i st = 0.
Proof.
  intros H0 Hfuel. unfold border_pass.
  set (m := len pattern).
  apply (while_rule (border_inv2 pattern)
           (fun st l => border_inv2 pattern st l /\ gs_i st = 0)
           (fun st => Z.to_nat (gs_i st))); [|exact H0|].
  2:{ destruct H0 as (Hi & _). unfold len in Hi. lia. }
  clear l H0 st0. intros st l Hinv.
  exists (0 <? gs_i st), []. split; [reflexivity|]. rewrite app_nil_r.
  pose proof Hinv as (Hi & Hlgs & Hlbp & Hj & Hlinks & Hrec & Hlen).
  fold m in Hi, Hlgs, Hlbp, Hlen.
  destruct (Z.ltb_spec 0 (gs_i st)) as [Hpos|Hle].
  2:{ split; [exact Hinv|lia]. }
  destruct (Hlinks (gs_i st)) as [Hb Hbound]; [fold m; lia|].
  rewrite <- Hj in Hb, Hbound. fold m in Hbound.
  destruct (border_chain_spec2 pattern fuel st l)
    as (st1 & l1 & Hrun & Hch & Hlen1 & Hexit); [|exact Hfuel|].
  { unfold chain_inv2. fold m. split; [reflexivity|]. split; [reflexivity|].
    split; [lia|]. repeat (split; [assumption|]). exact Hlen. }
  fold m in Hrun, Hlen1, Hexit. rewrite Hrun. simpl.
  destruct Hch as (Hgi & Hbp & _ & Hlgs1 & Hlbp1 & Hbord & Hjm & Hlinks1 & Hrec1 & _).
  set (i := gs_i st) in *. fold m in Hlgs1, Hlbp1, Hjm.
  pose proof Hbord as [Hij _].
  rewrite Hgi.
  rewrite write_ok by lia. simpl.
  eexists _, _. split; [reflexivity|].
  split; [|simpl; lia].
  unfold border_inv2; simpl. fold m.
  split; [lia|]. split; [exact Hlgs1|]. split; [now rewrite len_insert|].
  split; [now rewrite at_index_insert_eq by lia|].
  split.
  { intros k Hk. fold m in Hk. destruct (decide (k = i - 1)) as [->|Hne].
    - rewrite at_index_insert_eq by lia. split; [|fold m; lia].
      apply border_extend; [exact Hbord|exact Hexit].
    - rewrite at_index_insert_ne by lia. apply Hlinks1. fold m. lia. }
  split; [exact Hrec1|].
  rewrite length_app in *. rewrite length_app. simpl.
  unfold border_budget in *. lia.
Qed.

Lemma fill_pass_spec2 (pattern : list byte) (fuel : nat) (l0 : Z)
    (st0 : gs_state) (l : list event) :
  fill_inv2 pattern (goodSuffixShifts st0) l0 st0 l ->
  (length pattern + 2 <= fuel)%nat ->
  exists st l',
    fill_pass (len pattern) fuel st0 = Ok st l' /\
    fill_inv2 pattern (goodSuffixShifts st0) l0 st (l ++ l') /\
    gs_i st = len pattern + 1.
Proof.
  intros H0 Hfuel. unfold fill_pass.
  set (m := len pattern). set (gs1 := goodSuffixShifts st0) in *.
  apply (while_rule (fill_inv2 pattern gs1 l0)
           (fun st l => fill_inv2 pattern gs1 l0 st l /\ gs_i st = m + 1)
           (fun st => Z.to_nat (m + 1 - gs_i st))); [|exact H0|].
  2:{ destruct H0 as (Hi & _). unfold m, len in *. lia. }
  clear l H0. intros st l Hinv.
  exists (gs_i st <=? m), []. split; [reflexivity|]. rewrite app_nil_r.
  pose proof Hinv as (Hi & Hlgs & Hlbp & Hlinks & Hb0 & Hij & Hfilled & Hrest & Hlen).
  fold m in Hi, Hlgs, Hlbp, Hij, Hrest.
  destruct (Z.leb_spec (gs_i st) m) as [Hle|Hgt].
  2:{ split; [exact Hinv|lia]. }
  rewrite read_ok by lia. simpl.
  destruct (set_if_unset_cases (goodSuffixShifts st) (gs_i st) (gs_j st))
    as (gs' & lw & Hset & Hlw & Hlen' & Hother & Hkeep & Hnew); [lia|].
  rewrite Hset. simpl.
  assert (Hfilled' : forall k, 0 <= k < gs_i st + 1 ->
     (at_index gs1 k ≠ 0 /\ at_index gs' k = at_index gs1 k) \/
     (border pattern 0 (at_index gs' k) /\ k <= at_index gs' k)).
  { intros k Hk. destruct (decide (k = gs_i st)) as [->|Hne].
    - pose proof (Hrest (gs_i st) ltac:(lia)) as Heq.
      destruct (decide (at_index gs1 (gs_i st) = 0)) as [Hz|Hnz].
      + right. rewrite Hnew by congruence. split; [exact Hb0|lia].
      + left. split; [exact Hnz|]. rewrite Hkeep by congruence. exact Heq.
    - rewrite Hother by lia. apply Hfilled. lia. }
  assert (Hrest' : forall k, gs_i st + 1 <= k <= m -> at_index gs' k = at_index gs1 k).
  { intros k Hk. rewrite Hother by lia. apply Hrest. lia. }
  destruct (Z.eqb_spec (gs_i st) (gs_j st)) as [Heq|Hne].
  - destruct (Hlinks (gs_j st)) as [Hb Hbound]; [fold m; lia|]. fold m in Hbound.
    pose proof Hb as [Hlt _].
    rewrite read_ok by lia. simpl.
    eexists _, _. split; [reflexivity|]. split; [|simpl; lia].
    unfold fill_inv2; simpl. fold m.
    split; [lia|]. split; [lia|]. split; [exact Hlbp|]. split; [exact Hlinks|].
    split; [eapply border_trans; eauto|]. split; [lia|].
    split; [exact Hfilled'|]. split; [exact Hrest'|].
    rewrite length_app. simpl. rewrite length_app. simpl. lia.
  - simpl. eexists _, _. split; [reflexivity|]. split; [|simpl; lia].
    unfold fill_inv2; simpl. fold m.
    split; [lia|]. split; [lia|]. split; [exact Hlbp|]. split; [exact Hlinks|].
    split; [exact Hb0|]. split; [lia|].
    split; [exact Hfilled'|]. split; [exact Hrest'|].
    rewrite length_app. simpl. rewrite length_app. simpl. lia.
Qed.

Lemma precomputeGoodSuffixTable_spec2 (pattern : list byte) :
  exists G l,
    precomputeGoodSuffixTable pattern = Ok G l /\
    (forall k, 0 <= k <= len pattern -> candidate pattern k (at_index G k)) /\
    Z.of_nat (length l) <= 11 * len pattern + 5.
Proof.
  unfold precomputeGoodSuffixTable.
  set (m := len pattern). set (fuel := S (S (length pattern))).
  pose proof (len_nonneg pattern) as Hm. fold m in Hm.
  rewrite write_ok by (rewrite len_replicate; lia). simpl.
  edestruct (border_pass_spec2 pattern fuel
               {| goodSuffixShifts := replicate (Z.to_nat (m + 1)) 0;
                  borderPos := <[Z.to_nat m := m + 1]> (replicate (Z.to_nat (m + 1)) 0);
                  gs_i := m; gs_j := m + 1 |} [Write BorderPos m (m + 1)])
    as (st1 & l1 & Hrun1 & Hinv1 & Hi1); [|unfold fuel; lia|].
  { assert (Hbp : at_index (<[Z.to_nat m := m + 1]> (replicate (Z.to_nat (m + 1)) 0)) m
                  = m + 1).
    { apply at_index_insert_eq. rewrite len_replicate; lia. }
    unfold border_inv2; simpl. fold m.
    split; [lia|]. split; [apply len_replicate; lia|].
    split; [rewrite len_insert; apply len_replicate; lia|].
    split; [now rewrite Hbp|].
    split.
    { intros k Hk. fold m in Hk. replace k with m by lia. rewrite Hbp.
      split; [|fold m; lia]. apply border_beyond; fold m; lia. }
    split.
    { intros k Hk Hnz. fold m in Hk. rewrite at_index_replicate in Hnz by lia.
      congruence. }
    unfold border_budget. lia. }
  fold m in Hrun1. rewrite Hrun1. simpl.
  pose proof Hinv1 as (_ & Hlgs & Hlbp & Hj & Hlinks & Hrec & Hlen).
  rewrite Hi1 in Hlinks, Hlen. fold m in Hlgs, Hlbp, Hlen.
  rewrite read_ok by lia. simpl.
  destruct (Hlinks 0) as [Hb0 Hbound]; [fold m; lia|]. fold m in Hbound.
  pose proof Hb0 as [Hpos _].
  assert (Hj1 : gs_j st1 <= m + 1).
  { rewrite Hj, Hi1. exact Hbound. }
  edestruct (fill_pass_spec2 pattern fuel (8 * m + 2)
               {| goodSuffixShifts := goodSuffixShifts st1;
                  borderPos := borderPos st1; gs_i := 0;
                  gs_j := at_index (borderPos st1) 0 |}
               ((Write BorderPos m (m + 1) :: l1) ++ [Read BorderPos 0]))
    as (st2 & l2 & Hrun2 & Hinv2 & Hi2); [|unfold fuel; lia|].
  { unfold fill_inv2; simpl. fold m.
    split; [lia|]. split; [exact Hlgs|]. split; [exact Hlbp|]. split; [exact Hlinks|].
    split; [exact Hb0|]. split; [lia|].
    split; [intros k Hk; lia|]. split; [reflexivity|].
    rewrite length_app. simpl in *. unfold border_budget in Hlen. lia. }
  fold m in Hrun2. rewrite Hrun2. simpl.
  eexists _, _. split; [reflexivity|]. simpl in Hinv2.
  destruct Hinv2 as (_ & _ & _ & _ & _ & _ & Hfilled & _ & Hlen2).
  rewrite Hi2 in Hfilled, Hlen2. fold m in Hfilled, Hlen2.
  split.
  - intros k Hk. fold m in Hk.
    destruct (Hfilled k) as [[Hnz Heq]|[Hb Hge]]; [lia| |].
    + rewrite Heq. destruct (Hrec k Hk Hnz) as (Hi & _ & [Hlt Hsuf] & Hmis).
      split.
      * intros q Hq _. rewrite <- (Hsuf q Hq). f_equal. lia.
      * intros _ _. replace (k - 1 - at_index (goodSuffixShifts st1) k)
          with (k - at_index (goodSuffixShifts st1) k - 1) by lia.
        exact Hmis.
    + destruct Hb as [Hlt Hsuf]. split.
      * intros q Hq Hdq. rewrite <- (Hsuf q) by (fold m; lia). f_equal. lia.
      * intros; lia.
  - rewrite app_nil_r. rewrite <- app_assoc in Hlen2. simpl in Hlen2.
    simpl. lia.
Qed.

(** ** The trace of the bad-character construction *)

Lemma bad_character_trace_loop (pattern : list byte) :
  exists st l,
    while (S (length pattern))
      (fun st => ret (bc_i st <? len pattern))
      (fun st =>
         c <- read Pattern pattern (bc_i st) ;;
         t <- write BadCharTable (bc_table st) (uchar c) (bc_i st) ;;
         ret {| bc_table := t; bc_i := bc_i st + 1 |})
      {| bc_table := replicate (Z.to_nat NUM_CHARS) (-1); bc_i := 0 |}
    = Ok st l /\
    l = flat_map (fun i => [Read Pattern i;
                            Write BadCharTable (uchar (at_index pattern i)) i])
          (seqZ 0 (len pattern)).
Proof.
  set (m := len pattern).
  pose proof (len_nonneg pattern) as Hm. fold m in Hm.
  set (f := fun i => [Read Pattern i;
                      Write BadCharTable (uchar (at_index pattern i)) i]).
  apply (while_rule
           (fun st l => 0 <= bc_i st <= m /\ len (bc_table st) = NUM_CHARS /\
                        l = flat_map f (seqZ 0 (bc_i st)))
           (fun st l => l = flat_map f (seqZ 0 m))
           (fun st => Z.to_nat (m - bc_i st)) _ _) with (l := []).
  - intros st l (Hi & Hlen & Hl).
    exists (bc_i st <? len pattern), []. split; [reflexivity|].
    fold m. destruct (Z.ltb_spec (bc_i st) m) as [Hlt|Hge].
    + pose proof (uchar_range (at_index pattern (bc_i st))) as Hu.
      rewrite read_ok by (fold m; lia). simpl.
      rewrite write_ok by (rewrite Hlen; unfold NUM_CHARS; lia). simpl.
      eexists _, _. split; [reflexivity|]. simpl. split; [|lia].
      split; [lia|]. split; [now rewrite len_insert|].
      rewrite (seqZ_app 0 (bc_i st) 1) by lia.
      rewrite flat_map_app, <- Hl. reflexivity.
    + rewrite app_nil_r. replace m with (bc_i st) by lia. exact Hl.
  - split; [simpl; lia|]. split; [reflexivity|reflexivity].
  - simpl. unfold m, len. lia.
Qed.

(** ** The comparison loop makes at most two reads per pattern character *)

Lemma compare_length (text pattern : list byte) (s : Z) :
  0 <= s -> s + len pattern <= len text ->
  exists j lc,
    compare text pattern s (S (length pattern)) (len pattern - 1) = Ok j lc /\
    -1 <= j <= len pattern - 1 /\
    Z.of_nat (length lc) <= 2 * len pattern.
Proof.
  intros Hs Hfit. unfold compare.
  set (m := len pattern) in *. set (n := len text) in *.
  pose proof (len_nonneg pattern) as Hm. fold m in Hm.
  apply (loop_rule
           (fun j l => -1 <= j <= m - 1 /\ Z.of_nat (length l) <= 2 * (m - 1 - j))
           (fun j l => -1 <= j <= m - 1 /\ Z.of_nat (length l) <= 2 * m)
           (fun j => Z.to_nat (j + 1)) _) with (l := []).
  - intros j l (Hj & Hlen).
    destruct (Z.leb_spec 0 j) as [Hpos|Hneg].
    + rewrite !read_ok by (fold m n; lia). simpl.
      destruct (Byte.eqb (at_index pattern j) (at_index text (s + j)));
        (eexists _, _; split; [reflexivity|]); simpl;
        rewrite length_app; simpl; lia.
    + eexists _, _. split; [reflexivity|]. simpl. rewrite app_nil_r. lia.
  - simpl. lia.
  - unfold m, len. lia.
Qed.

(** ** The bookkeeping of the search loop *)

Lemma flat_map_accesses {A} (f : event -> list A) (n m : Z) (l : list event) :
  (forall a i, f (Read a i) = []) -> (forall a i v, f (Write a i v) = []) ->
  Forall (access_ok n m) l -> flat_map f l = [].
Proof.
  intros Hr Hw. induction 1 as [|e l He _ IH]; [reflexivity|].
  simpl. rewrite IH. destruct e; simpl in He; try tauto; now rewrite ?Hr, ?Hw.
Qed.

Lemma no_report_accesses (n m : Z) (l : list event) :
  Forall (access_ok n m) l -> Forall (fun e => ~ is_report e) l.
Proof.
  intros H. eapply Forall_impl; [exact H|].
  intros e. destruct e; simpl; tauto.
Qed.

Lemma bad_char_shift_range (pattern : list byte) (T : list Z) (c : byte) (j : Z) :
  last_before pattern (len pattern) c (at_index T (uchar c)) ->
  0 <= j < len pattern ->
  1 <= Z.max 1 (j - at_index T (uchar c)) <= len pattern.
Proof. intros [[-> _]|(Hv & _)] Hj; lia. Qed.

Ltac project Hlc :=
  unfold alignments, found_offsets, step_numbers, pattern_alignments; simpl;
  rewrite ?flat_map_app;
  rewrite ?(flat_map_accesses _ _ _ _ (fun _ _ => eq_refl) (fun _ _ _ => eq_refl) Hlc);
  simpl; try reflexivity.

Lemma search_step_book (text pattern : list byte) (T G : list Z)
    (st : search_state) :
  let n := len text in
  let m := len pattern in
  1 <= m -> len T = NUM_CHARS ->
  (forall c, last_before pattern m c (at_index T (uchar c))) ->
  good_suffix_table pattern G ->
  0 <= shift st <= n - m ->
  exists st' lb f,
    search_step text pattern n m T G st = Ok st' lb /\
    1 <= f <= m /\ shift st' = shift st + f /\
    step st' = step st + 1 /\
    totalSkippedChars st'
    = (if shift st' <=? n - m then totalSkippedChars st + (f - 1)
       else totalSkippedChars st) /\
    ((matchedIndex st' = matchedIndex st ++ [shift st] /\ found st' = true /\
      found_offsets lb = [shift st]) \/
     (matchedIndex st' = matchedIndex st /\ found st' = found st /\
      found_offsets lb = [])) /\
    alignments lb = [shift st] /\ step_numbers lb = [step st] /\
    pattern_alignments lb
    = (if shift st' <=? n - m then [shift st'] else []) /\
    Z.of_nat (length lb) <= 2 * m + 6 /\
    Forall (fun e => ~ is_report e) lb.
Proof.
  intros n m Hm HT Hlast HGspec Hs.
  destruct (compare_spec text pattern (shift st)) as (j & lc & Hcmp & Hcinv & _);
    [lia|fold n m; lia|].
  destruct Hcinv as (Hj & _ & Hlc). fold m in Hcmp, Hj. fold n m in Hlc.
  destruct (compare_length text pattern (shift st)) as (j' & lc' & Hcmp' & _ & Hlen);
    [lia|fold n m; lia|].
  fold m in Hcmp', Hlen. rewrite Hcmp in Hcmp'. injection Hcmp' as <- <-.
  pose proof (no_report_accesses _ _ _ Hlc) as Hnr.
  pose proof HGspec as (HG & _ & Hslots). fold m in HG.
  unfold search_step. fold m. rewrite Hcmp. simpl.
  destruct (Z.ltb_spec j 0) as [Hneg|Hpos].
  - destruct (Hslots 0) as [Hrange _]; [fold m; lia|]. fold m in Hrange.
    rewrite read_ok by lia. simpl.
    destruct (at_index G 0 + shift st <=? n - m); simpl;
      destruct (Z.leb_spec (shift st + at_index G 0) (n - m)); simpl;
      (eexists _, _, (at_index G 0); split; [reflexivity|]; simpl;
       split; [lia|]; split; [reflexivity|]; split; [reflexivity|];
       split; [destruct (Z.ltb_spec 1 (at_index G 0)); simpl;
               destruct (Z.leb_spec (shift st + at_index G 0) (n - m)); lia|];
       split; [left; split; [reflexivity|]; split; [reflexivity|]; project Hlc|];
       split; [project Hlc|]; split; [project Hlc|];
       split; [project Hlc;
               destruct (Z.leb_spec (shift st + at_index G 0) (n - m));
               (reflexivity || lia)|];
       split; [rewrite length_app; simpl; lia|];
       constructor; [simpl; tauto|]; apply Forall_app; split; [exact Hnr|];
       repeat constructor; simpl; tauto).
  - pose proof (uchar_range (at_index text (shift st + j))) as Hu.
    destruct (Hslots (j + 1)) as [Hrange _]; [fold m; lia|]. fold m in Hrange.
    pose proof (bad_char_shift_range pattern T (at_index text (shift st + j)) j
                  (Hlast _)) as Hbc. fold m in Hbc. specialize (Hbc ltac:(lia)).
    repeat (rewrite read_ok by (fold n; unfold NUM_CHARS in *; lia); simpl).
    set (bc := Z.max 1 (j - at_index T (uchar (at_index text (shift st + j))))) in *.
    set (f := Z.max bc (at_index G (j + 1))).
    assert (Hf : 1 <= f <= m) by (unfold f; lia).
    destruct (Z.leb_spec (shift st + f) (n - m)); simpl;
      (eexists _, _, f; split; [reflexivity|]; simpl;
       split; [lia|]; split; [reflexivity|]; split; [reflexivity|];
       split; [destruct (Z.ltb_spec 1 f); simpl;
               destruct (Z.leb_spec (shift st + f) (n - m)); lia|];
       split; [right; split; [reflexivity|]; split; [reflexivity|]; project Hlc|];
       split; [project Hlc|]; split; [project Hlc|];
       split; [project Hlc;
               destruct (Z.leb_spec (shift st + f) (n - m));
               (reflexivity || lia)|];
       split; [rewrite length_app; simpl; lia|];
       constructor; [simpl; tauto|]; apply Forall_app; split; [exact Hnr|];
       repeat constructor; simpl; tauto).
Qed.

Lemma seqZ_snoc (a k : Z) : 0 <= k -> seqZ a (k + 1) = seqZ a k ++ [a + k].
Proof.
  intros Hk. rewrite seqZ_app by lia. f_equal.
Qed.

Lemma search_loop_book (text pattern : list byte) (T G : list Z) :
  let n := len text in
  let m := len pattern in
  1 <= m <= n -> len T = NUM_CHARS ->
  (forall c, last_before pattern m c (at_index T (uchar c))) ->
  good_suffix_table pattern G ->
  exists st l,
    while (S (Z.to_nat (n - m + 1)))
      (fun st => ret (shift st <=? n - m))
      (search_step text pattern n m T G)
      {| shift := 0; matchedIndex := []; found := false;
         totalSkippedChars := 0; step := 1 |}
    = Ok st l /\
    book_inv text pattern st l /\ n - m < shift st.
Proof.
  intros n m Hm HT Hlast HGspec.
  apply (while_rule (book_inv text pattern)
           (fun st l => book_inv text pattern st l /\ n - m < shift st)
           (fun st => Z.to_nat (n - m + 1 - shift st)) _ _) with (l := []).
  - intros st l Hinv. exists (shift st <=? n - m), []. split; [reflexivity|].
    rewrite app_nil_r. destruct (Z.leb_spec (shift st) (n - m)) as [Hle|Hgt];
      [|split; [exact Hinv|lia]].
    destruct Hinv as (Hs & Hfound & Hstep & Hnums & Hoffs & Htotal & Hdiag & Hlen & Hnr).
    fold n m in Hs, Htotal, Hdiag, Hlen.
    destruct (Z.leb_spec (shift st) (n - m)) as [_|]; [|lia].
    destruct (search_step_book text pattern T G st)
      as (st' & lb & f & Hrun & Hf & Hshift & Hstep' & Htotal' & Hcase & Halb
          & Hnlb & Hpalb & Hlenlb & Hnrlb); try assumption; [fold m; lia|fold n m; lia|].
    fold n m in Hrun, Hf, Htotal', Hpalb, Hlenlb.
    exists st', lb. split; [exact Hrun|]. split; [|lia].
    change ([] ++ lb) with lb.
    assert (Htried : Z.of_nat (length (alignments (l ++ lb)))
                     = Z.of_nat (length (alignments l)) + 1).
    { rewrite alignments_app, Halb, length_app. simpl. lia. }
    unfold book_inv. fold n m. rewrite Htried.
    split; [lia|]. split.
    { destruct Hcase as [(-> & -> & _)|(-> & -> & _)]; [|exact Hfound].
      split; [intros _ Heq; now apply app_eq_nil in Heq as [_ ?]|reflexivity]. }
    split; [lia|]. split.
    { unfold step_numbers in *. rewrite flat_map_app, Hnlb, Hnums.
      rewrite seqZ_snoc by lia. now rewrite Hstep. }
    split.
    { unfold found_offsets in *. rewrite flat_map_app, Hoffs.
      destruct Hcase as [(-> & _ & ->)|(-> & _ & ->)]; [reflexivity|apply app_nil_r]. }
    split.
    { rewrite Htotal', alignments_app, Halb, last_snoc. simpl.
      destruct (Z.leb_spec (shift st') (n - m)); lia. }
    split.
    { rewrite alignments_app, Halb. unfold pattern_alignments in *.
      rewrite flat_map_app, Hpalb, app_comm_cons, <- Hdiag. reflexivity. }
    split; [rewrite length_app; nia|].
    apply Forall_app. split; assumption.
  - unfold book_inv. simpl. fold n m.
    destruct (Z.leb_spec 0 (n - m)); [|lia].
    split; [lia|]. split; [split; [discriminate|congruence]|].
    repeat (split; [reflexivity || lia|]). constructor.
  - simpl. lia.
Qed.

(** ** The bookkeeping of a whole call *)

Lemma precomputeBadCharacterTable_trace (pattern : list byte) :
  exists T l,
    precomputeBadCharacterTable pattern = Ok T l /\
    l = flat_map (fun i => [Read Pattern i;
                            Write BadCharTable (uchar (at_index pattern i)) i])
          (seqZ 0 (len pattern)).
Proof.
  destruct (bad_character_trace_loop pattern) as (st & l & Hrun & Hl).
  exists (bc_table st), l. split; [|exact Hl].
  unfold precomputeBadCharacterTable. rewrite Hrun. simpl. now rewrite app_nil_r.
Qed.

Lemma bad_character_trace_length (pattern : list byte) :
  length (flat_map (fun i => [Read Pattern i;
                              Write BadCharTable (uchar (at_index pattern i)) i])
            (seqZ 0 (len pattern)))
  = (2 * length pattern)%nat.
Proof.
  rewrite flat_map_constant_length with (c := 2%nat) by reflexivity.
  rewrite length_seqZ. unfold len. lia.
Qed.

Lemma not_in_no_report (e : event) (l : list event) :
  is_report e -> Forall (fun e => ~ is_report e) l -> ~ In e l.
Proof.
  intros He Hl Hin. rewrite Forall_forall in Hl.
  apply list_elem_of_In in Hin. exact (Hl e Hin He).
Qed.

Lemma searchBoyerMoore_book (text pattern : list byte) :
  let n := len text in
  let m := len pattern in
  1 <= m <= n ->
  exists st l l',
    searchBoyerMoore text pattern = Ok (Searched st) l /\
    l = l' ++ [PrintSummary (matchedIndex st) (totalSkippedChars st)] /\
    (In PrintNotFound l' <-> found st = false) /\
    (forall e, In e l' -> is_report e -> e = PrintNotFound) /\
    n - m < shift st <= n /\
    (found st = true <-> matchedIndex st ≠ []) /\
    step st = 1 + Z.of_nat (length (alignments l)) /\
    step_numbers l = seqZ 1 (Z.of_nat (length (alignments l))) /\
    found_offsets l = matchedIndex st /\
    totalSkippedChars st + Z.of_nat (length (alignments l))
    = default 0 (last (alignments l)) + 1 /\
    alignments l = 0 :: pattern_alignments l /\
    Z.of_nat (length l)
    <= 13 * m + 7 + (2 * m + 6) * Z.of_nat (length (alignments l)).
Proof.
  intros n m Hm. unfold searchBoyerMoore. fold n m.
  destruct (Z.eqb_spec m 0) as [|_]; [lia|].
  destruct (Z.ltb_spec n m) as [|_]; [lia|]. simpl.
  destruct (precomputeBadCharacterTable_spec pattern n)
    as (T & lT & HrunT & HT & Hlast & HlT).
  destruct (precomputeBadCharacterTable_trace pattern) as (T' & lT' & HrunT' & HlenT).
  rewrite HrunT in HrunT'. injection HrunT' as <- <-.
  apply (f_equal (@length event)) in HlenT.
  rewrite bad_character_trace_length in HlenT.
  destruct (precomputeGoodSuffixTable_spec pattern n)
    as (G & lG & HrunG & HG & HlG & _).
  destruct (precomputeGoodSuffixTable_spec2 pattern) as (G' & lG' & HrunG' & _ & HlenG).
  rewrite HrunG in HrunG'. injection HrunG' as <- <-.
  fold m in Hlast, HlT, HlG, HlenG. rewrite HrunT, HrunG. simpl.
  destruct (search_loop_book text pattern T G) as (st & l & Hrun & Hinv & Hend);
    try assumption.
  fold n m in Hrun, Hend. rewrite Hrun. simpl.
  destruct Hinv as (Hs & Hfound & Hstep & Hnums & Hoffs & Htotal & Hdiag & Hlen & Hnr).
  fold n m in Hs, Htotal, Hdiag, Hlen.
  destruct (Z.leb_spec (shift st) (n - m)) as [|_]; [lia|].
  rewrite app_nil_r in Hdiag.
  pose proof (no_report_accesses _ _ _ HlT) as HnrT.
  pose proof (no_report_accesses _ _ _ HlG) as HnrG.
  assert (Hal : forall tl, alignments tl = [] ->
                  alignments (lT ++ lG ++ l ++ tl) = alignments l).
  { intros tl Htl. rewrite !alignments_app, Htl, app_nil_r.
    now rewrite (access_ok_alignments _ _ _ HlT), (access_ok_alignments _ _ _ HlG). }
  assert (Hbody : forall tl : list event,
            alignments tl = [] -> step_numbers tl = [] ->
            pattern_alignments tl = [] -> found_offsets tl = [] ->
            (length tl <= 1)%nat ->
            (In PrintNotFound tl <-> found st = false) ->
            (forall e, In e tl -> e = PrintNotFound) ->
            exists l1 l',
              l1 = lT ++ lG ++ l ++ tl
                   ++ [PrintSummary (matchedIndex st) (totalSkippedChars st)] /\
              l1 = l' ++ [PrintSummary (matchedIndex st) (totalSkippedChars st)] /\
              (In PrintNotFound l' <-> found st = false) /\
              (forall e, In e l' -> is_report e -> e = PrintNotFound) /\
              n - m < shift st <= n /\
              (found st = true <-> matchedIndex st ≠ []) /\
              step st = 1 + Z.of_nat (length (alignments l1)) /\
              step_numbers l1 = seqZ 1 (Z.of_nat (length (alignments l1))) /\
              found_offsets l1 = matchedIndex st /\
              totalSkippedChars st + Z.of_nat (length (alignments l1))
              = default 0 (last (alignments l1)) + 1 /\
              alignments l1 = 0 :: pattern_alignments l1 /\
              Z.of_nat (length l1)
              <= 13 * m + 7 + (2 * m + 6) * Z.of_nat (length (alignments l1))).
  { intros tl Hatl Hntl Hptl Hftl Hltl Hnf Honly.
    eexists _, (lT ++ lG ++ l ++ tl). split; [reflexivity|].
    split; [now rewrite <- !app_assoc|].
    assert (Hal1 : alignments (lT ++ lG ++ l ++ tl ++
                     [PrintSummary (matchedIndex st) (totalSkippedChars st)])
                   = alignments l).
    { apply Hal. now rewrite alignments_app, Hatl. }
    rewrite Hal1.
    split.
    { rewrite <- Hnf. rewrite !in_app_iff. split; [|tauto].
      intros [Hin|[Hin|[Hin|Hin]]]; [| | |exact Hin];
        exfalso; revert Hin; apply not_in_no_report; simpl; auto. }
    split.
    { intros e Hin He. rewrite !in_app_iff in Hin.
      destruct Hin as [Hin|[Hin|[Hin|Hin]]]; [| | |now apply Honly];
        exfalso; revert Hin; apply not_in_no_report; auto. }
    split; [lia|]. split; [exact Hfound|]. split; [exact Hstep|].
    split.
    { unfold step_numbers in *. rewrite !flat_map_app, Hntl, Hnums.
      rewrite (flat_map_accesses _ _ _ _ (fun _ _ => eq_refl) (fun _ _ _ => eq_refl) HlT).
      rewrite (flat_map_accesses _ _ _ _ (fun _ _ => eq_refl) (fun _ _ _ => eq_refl) HlG).
      simpl. now rewrite app_nil_r. }
    split.
    { unfold found_offsets in *. rewrite !flat_map_app, Hftl, Hoffs.
      rewrite (flat_map_accesses _ _ _ _ (fun _ _ => eq_refl) (fun _ _ _ => eq_refl) HlT).
      rewrite (flat_map_accesses _ _ _ _ (fun _ _ => eq_refl) (fun _ _ _ => eq_refl) HlG).
      simpl. now rewrite app_nil_r. }
    split; [exact Htotal|].
    split.
    { rewrite Hdiag. f_equal. unfold pattern_alignments in *.
      rewrite !flat_map_app, Hptl.
      rewrite (flat_map_accesses _ _ _ _ (fun _ _ => eq_refl) (fun _ _ _ => eq_refl) HlT).
      rewrite (flat_map_accesses _ _ _ _ (fun _ _ => eq_refl) (fun _ _ _ => eq_refl) HlG).
      simpl. now rewrite app_nil_r. }
    rewrite !length_app. simpl. unfold m, len in *. lia. }
  destruct (found st) eqn:Hfd; simpl.
  - destruct (Hbody []) as (l1 & l' & Hl1 & H); try reflexivity.
    + simpl; lia.
    + simpl. split; [tauto|discriminate].
    + intros e [].
    + subst l1. eexists st, _, l'. rewrite Hfd. split; [reflexivity|]. exact H.
  - destruct (Hbody [PrintNotFound]) as (l1 & l' & Hl1 & H); try reflexivity.
    + simpl. split; auto.
    + intros e [<-|[]]; reflexivity.
    + subst l1. eexists st, _, l'. rewrite Hfd. split; [reflexivity|]. exact H.
Qed.

(** ** Further properties of the two constructions *)

(** X1. On a pattern shorter than [INT_MAX], every slot [k] of the table built
    by [precomputeGoodSuffixTable] holds the least shift [d >= 1] that is
    compatible with a mismatch at [k - 1] after the characters from [k] on have
    matched: the shifted pattern agrees with the matched suffix where it
    overlaps it, and brings a different character under the mismatch when it
    still covers it. *)
Theorem good_suffix_table_least_shift (pattern : list byte) :
  len pattern < INT_MAX ->
  exists G l,
    precomputeGoodSuffixTable pattern = Ok G l /\
    forall k, 0 <= k <= len pattern ->
      1 <= at_index G k /\
      candidate pattern k (at_index G k) /\
      forall d, 1 <= d -> candidate pattern k d -> at_index G k <= d.
Proof.
  intros _.
  destruct (precomputeGoodSuffixTable_spec pattern 0)
    as (G & l & Hrun & (_ & _ & Hslots) & _).
  destruct (precomputeGoodSuffixTable_spec2 pattern) as (G' & l' & Hrun' & Hcand & _).
  rewrite Hrun in Hrun'. injection Hrun' as <- <-.
  exists G, l. split; [exact Hrun|]. intros k Hk.
  destruct (Hslots k Hk) as [Hrange Hsafe].
  split; [lia|]. split; [now apply Hcand|].
  intros d Hd Hc. destruct (Z.le_gt_cases (at_index G k) d) as [|Hlt]; [assumption|].
  exfalso. apply (Hsafe d); [lia|exact Hc].
Qed.

Lemma good_suffix_table_least_shift_witness :
  len [x41; x42; x41; x42; x41] < INT_MAX /\
  exists G l,
    precomputeGoodSuffixTable [x41; x42; x41; x42; x41] = Ok G l /\
    forall k, 0 <= k <= len [x41; x42; x41; x42; x41] ->
      1 <= at_index G k /\
      candidate [x41; x42; x41; x42; x41] k (at_index G k) /\
      forall d, 1 <= d -> candidate [x41; x42; x41; x42; x41] k d ->
                at_index G k <= d.
Proof.
  split; [vm_compute; reflexivity|].
  apply (good_suffix_table_least_shift [x41; x42; x41; x42; x41]).
  vm_compute; reflexivity.
Defined.

(** X2. On a pattern of length [m] below [INT_MAX],
    [precomputeGoodSuffixTable] makes at most [11 m + 5] accesses to the
    pattern and to its two vectors. *)
Theorem good_suffix_table_linear_work (pattern : list byte) :
  len pattern < INT_MAX ->
  exists G l,
    precomputeGoodSuffixTable pattern = Ok G l /\
    Forall (fun e => is_access e = true) l /\
    Z.of_nat (length l) <= 11 * len pattern + 5.
Proof.
  intros _.
  destruct (precomputeGoodSuffixTable_spec pattern 0)
    as (G & l & Hrun & _ & Hlog & _).
  destruct (precomputeGoodSuffixTable_spec2 pattern) as (G' & l' & Hrun' & _ & Hlen).
  rewrite Hrun in Hrun'. injection Hrun' as <- <-.
  exists G, l. split; [exact Hrun|]. split; [|exact Hlen].
  eapply Forall_impl; [exact Hlog|]. intros e. destruct e; simpl; tauto.
Qed.

Lemma good_suffix_table_linear_work_witness :
  len [x41; x42; x41; x42; x41] < INT_MAX /\
  exists G l,
    precomputeGoodSuffixTable [x41; x42; x41; x42; x41] = Ok G l /\
    Forall (fun e => is_access e = true) l /\
    Z.of_nat (length l) <= 11 * len [x41; x42; x41; x42; x41] + 5.
Proof.
  split; [vm_compute; reflexivity|].
  apply (good_suffix_table_linear_work [x41; x42; x41; x42; x41]).
  vm_compute; reflexivity.
Defined.

(** X3. On a pattern whose length fits in an [int],
    [precomputeBadCharacterTable] reads the pattern once, from left to right,
    and after each character writes its index into the slot of that
    character: its trace is exactly these [2 m] accesses. *)
Theorem bad_character_table_trace (pattern : list byte) :
  len pattern <= INT_MAX ->
  exists T l,
    precomputeBadCharacterTable pattern = Ok T l /\
    l = flat_map (fun i => [Read Pattern i;
                            Write BadCharTable (uchar (at_index pattern i)) i])
          (seqZ 0 (len pattern)) /\
    length l = (2 * length pattern)%nat.
Proof.
  intros _.
  destruct (precomputeBadCharacterTable_trace pattern) as (T & l & Hrun & Hl).
  exists T, l. split; [exact Hrun|]. split; [exact Hl|].
  rewrite Hl. apply bad_character_trace_length.
Qed.

Lemma bad_character_table_trace_witness :
  len [x41; x42; x41] <= INT_MAX /\
  exists T l,
    precomputeBadCharacterTable [x41; x42; x41] = Ok T l /\
    l = flat_map (fun i => [Read Pattern i;
                            Write BadCharTable
                              (uchar (at_index [x41; x42; x41] i)) i])
          (seqZ 0 (len [x41; x42; x41])) /\
    length l = (2 * length [x41; x42; x41])%nat.
Proof.
  split; [vm_compute; discriminate|].
  apply (bad_character_table_trace [x41; x42; x41]). vm_compute; discriminate.
Defined.

(** X4. For a nonempty pattern shorter than [INT_MAX], slots [0] and [1] of
    the good-suffix table are equal: after a mismatch at position [0] the
    pattern is shifted as after a full match. *)
Theorem good_suffix_slot_one (pattern : list byte) :
  1 <= len pattern -> len pattern < INT_MAX ->
  exists G l,
    precomputeGoodSuffixTable pattern = Ok G l /\
    at_index G 1 = at_index G 0.
Proof.
  intros Hm _.
  destruct (precomputeGoodSuffixTable_spec pattern 0)
    as (G & l & Hrun & (_ & _ & Hslots) & _).
  destruct (precomputeGoodSuffixTable_spec2 pattern) as (G' & l' & Hrun' & Hcand & _).
  rewrite Hrun in Hrun'. injection Hrun' as <- <-.
  exists G, l. split; [exact Hrun|].
  destruct (Hslots 0) as [H0 Hsafe0]; [lia|].
  destruct (Hslots 1) as [H1 Hsafe1]; [lia|].
  pose proof (Hcand 0 ltac:(lia)) as [Hc0 _].
  pose proof (Hcand 1 ltac:(lia)) as [Hc1 _].
  destruct (Z.lt_trichotomy (at_index G 1) (at_index G 0)) as [Hlt|[Heq|Hgt]];
    [exfalso|exact Heq|exfalso].
  - apply (Hsafe0 (at_index G 1)); [lia|]. split; [|intros; lia].
    intros q Hq Hdq. apply Hc1; lia.
  - apply (Hsafe1 (at_index G 0)); [lia|]. split; [|intros; lia].
    intros q Hq Hdq. apply Hc0; lia.
Qed.

Lemma good_suffix_slot_one_witness :
  1 <= len [x41; x42; x41] /\ len [x41; x42; x41] < INT_MAX /\
  exists G l,
    precomputeGoodSuffixTable [x41; x42; x41] = Ok G l /\
    at_index G 1 = at_index G 0.
Proof.
  split; [vm_compute; discriminate|]. split; [vm_compute; reflexivity|].
  apply (good_suffix_slot_one [x41; x42; x41]);
    [vm_compute; discriminate|vm_compute; reflexivity].
Defined.

(** ** Further properties of the search *)

(** X5. When a search on a nonempty pattern no longer than the text, and a
    text shorter than [INT_MAX], is over, the alignment is past the last offset
    where the pattern fits, and not beyond the end of the text. *)
Theorem search_final_shift (text pattern : list byte) :
  1 <= len pattern -> len pattern <= len text -> len text < INT_MAX ->
  exists st l,
    searchBoyerMoore text pattern = Ok (Searched st) l /\
    len text - len pattern < shift st <= len text.
Proof.
  intros Hm Hn _.
  destruct (searchBoyerMoore_book text pattern) as (st & l & l' & Hrun & H); [lia|].
  exists st, l. split; [exact Hrun|]. apply H.
Qed.

Lemma search_final_shift_witness :
  1 <= len [x41; x42] /\
  len [x41; x42] <= len [x41; x41; x41; x41; x41; x41; x42] /\
  len [x41; x41; x41; x41; x41; x41; x42] < INT_MAX /\
  exists st l,
    searchBoyerMoore [x41; x41; x41; x41; x41; x41; x42] [x41; x42]
    = Ok (Searched st) l /\
    len [x41; x41; x41; x41; x41; x41; x42] - len [x41; x42] < shift st
    <= len [x41; x41; x41; x41; x41; x41; x42].
Proof.
  split; [vm_compute; discriminate|]. split; [vm_compute; discriminate|].
  split; [vm_compute; reflexivity|].
  apply (search_final_shift [x41; x41; x41; x41; x41; x41; x42] [x41; x42]);
    [vm_compute; discriminate|vm_compute; discriminate|vm_compute; reflexivity].
Defined.

(** X6. On a nonempty pattern no longer than the text, and a text shorter than
    [INT_MAX], the steps announced with the alignments are numbered 1, 2, 3,
    ... without a gap, and the step counter ends one above the number of
    alignments tried, which is at most [n - m + 2] and so at most
    [INT_MAX]. *)
Theorem step_counter (text pattern : list byte) :
  1 <= len pattern -> len pattern <= len text -> len text < INT_MAX ->
  exists st l,
    searchBoyerMoore text pattern = Ok (Searched st) l /\
    step_numbers l = seqZ 1 (Z.of_nat (length (alignments l))) /\
    step st = Z.of_nat (length (alignments l)) + 1 /\
    step st <= len text - len pattern + 2 <= INT_MAX.
Proof.
  intros Hm Hn Hint.
  destruct (searchBoyerMoore_book text pattern)
    as (st & l & l' & Hrun & _ & _ & _ & _ & _ & Hstep & Hnums & _); [lia|].
  destruct (searchBoyerMoore_spec text pattern)
    as (st0 & l0 & Hrun0 & _ & _ & Hcount & _); [lia|].
  rewrite Hrun in Hrun0. injection Hrun0 as <- <-.
  exists st, l. split; [exact Hrun|]. split; [exact Hnums|]. split; lia.
Qed.

Lemma step_counter_witness :
  1 <= len [x41; x42] /\
  len [x41; x42] <= len [x41; x41; x41; x41; x41; x41; x42] /\
  len [x41; x41; x41; x41; x41; x41; x42] < INT_MAX /\
  exists st l,
    searchBoyerMoore [x41; x41; x41; x41; x41; x41; x42] [x41; x42]
    = Ok (Searched st) l /\
    step_numbers l = seqZ 1 (Z.of_nat (length (alignments l))) /\
    step st = Z.of_nat (length (alignments l)) + 1 /\
    step st
    <= len [x41; x41; x41; x41; x41; x41; x42] - len [x41; x42] + 2
    <= INT_MAX.
Proof.
  split; [vm_compute; discriminate|]. split; [vm_compute; discriminate|].
  split; [vm_compute; reflexivity|].
  apply (step_counter [x41; x41; x41; x41; x41; x41; x42] [x41; x42]);
    [vm_compute; discriminate|vm_compute; discriminate|vm_compute; reflexivity].
Defined.




(** X8. When the search is carried out (a nonempty pattern no longer than the
    text, a text shorter than [INT_MAX]), the offsets printed by "Pattern
    found at index" are, in order, the occurrences of the pattern in the text,
    and the last thing printed is the summary, which lists the same offsets
    with the count of skipped characters. *)
Theorem found_reports (text pattern : list byte) :
  1 <= len pattern -> len pattern <= len text -> len text < INT_MAX ->
  exists st l,
    searchBoyerMoore text pattern = Ok (Searched st) l /\
    found_offsets l = naive_search text pattern /\
    last l = Some (PrintSummary (naive_search text pattern) (totalSkippedChars st)).
Proof.
  intros Hm Hn _.
  destruct (searchBoyerMoore_book text pattern)
    as (st & l & l' & Hrun & Hl & _ & _ & _ & _ & _ & _ & Hoffs & _); [lia|].
  destruct (searchBoyerMoore_spec text pattern) as (st0 & l0 & Hrun0 & Hnaive & _); [lia|].
  rewrite Hrun in Hrun0. injection Hrun0 as <- <-.
  exists st, l. split; [exact Hrun|]. rewrite <- Hnaive.
  split; [exact Hoffs|]. rewrite Hl. apply last_snoc.
Qed.

Lemma found_reports_witness :
  1 <= len [x41; x41] /\ len [x41; x41] <= len [x41; x41; x41; x41] /\
  len [x41; x41; x41; x41] < INT_MAX /\
  exists st l,
    searchBoyerMoore [x41; x41; x41; x41] [x41; x41] = Ok (Searched st) l /\
    found_offsets l = naive_search [x41; x41; x41; x41] [x41; x41] /\
    last l = Some (PrintSummary (naive_search [x41; x41; x41; x41] [x41; x41])
                     (totalSkippedChars st)).
Proof.
  split; [vm_compute; discriminate|]. split; [vm_compute; discriminate|].
  split; [vm_compute; reflexivity|].
  apply (found_reports [x41; x41; x41; x41] [x41; x41]);
    [vm_compute; discriminate|vm_compute; discriminate|vm_compute; reflexivity].
Defined.

(** X9. When the search is carried out (a nonempty pattern no longer than the
    text, a text shorter than [INT_MAX]), the count of skipped characters
    reported at the end is the number of offsets up to the last alignment at
    which the pattern was never aligned: with [k] alignments tried and the
    last of them at offset [s], it is [s + 1 - k]. *)
Theorem skipped_characters (text pattern : list byte) :
  1 <= len pattern -> len pattern <= len text -> len text < INT_MAX ->
  exists st l s,
    searchBoyerMoore text pattern = Ok (Searched st) l /\
    last (alignments l) = Some s /\
    totalSkippedChars st = s + 1 - Z.of_nat (length (alignments l)).
Proof.
  intros Hm Hn _.
  destruct (searchBoyerMoore_book text pattern)
    as (st & l & l' & Hrun & _ & _ & _ & _ & _ & _ & _ & _ & Htotal & Hdiag & _); [lia|].
  destruct (last (alignments l)) as [s|] eqn:Hlast.
  - exists st, l, s. split; [exact Hrun|]. split; [exact Hlast|]. simpl in Htotal. lia.
  - apply last_None in Hlast. rewrite Hlast in Hdiag. discriminate.
Qed.

Lemma skipped_characters_witness :
  1 <= len [x58; x59; x5a] /\
  len [x58; x59; x5a] <= len [x41; x41; x41; x41; x41; x41; x42] /\
  len [x41; x41; x41; x41; x41; x41; x42] < INT_MAX /\
  exists st l s,
    searchBoyerMoore [x41; x41; x41; x41; x41; x41; x42] [x58; x59; x5a]
    = Ok (Searched st) l /\
    last (alignments l) = Some s /\
    totalSkippedChars st = s + 1 - Z.of_nat (length (alignments l)).
Proof.
  split; [vm_compute; discriminate|]. split; [vm_compute; discriminate|].
  split; [vm_compute; reflexivity|].
  apply (skipped_characters [x41; x41; x41; x41; x41; x41; x42] [x58; x59; x5a]);
    [vm_compute; discriminate|vm_compute; discriminate|vm_compute; reflexivity].
Defined.

(** X10. When the search is carried out (a nonempty pattern no longer than the
    text, a text shorter than [INT_MAX]), the first alignment is at offset 0,
    and every later alignment is the one drawn by the alignment diagram at the
    end of the step before: the diagram is drawn exactly for the shifts that
    lead to a further alignment. *)
Theorem alignment_diagrams (text pattern : list byte) :
  1 <= len pattern -> len pattern <= len text -> len text < INT_MAX ->
  exists st l,
    searchBoyerMoore text pattern = Ok (Searched st) l /\
    alignments l = 0 :: pattern_alignments l.
Proof.
  intros Hm Hn _.
  destruct (searchBoyerMoore_book text pattern)
    as (st & l & l' & Hrun & _ & _ & _ & _ & _ & _ & _ & _ & _ & Hdiag & _); [lia|].
  exists st, l. auto.
Qed.

Lemma alignment_diagrams_witness :
  1 <= len [x41; x42] /\
  len [x41; x42] <= len [x41; x41; x41; x41; x41; x41; x42] /\
  len [x41; x41; x41; x41; x41; x41; x42] < INT_MAX /\
  exists st l,
    searchBoyerMoore [x41; x41; x41; x41; x41; x41; x42] [x41; x42]
    = Ok (Searched st) l /\
    alignments l = 0 :: pattern_alignments l.
Proof.
  split; [vm_compute; discriminate|]. split; [vm_compute; discriminate|].
  split; [vm_compute; reflexivity|].
  apply (alignment_diagrams [x41; x41; x41; x41; x41; x41; x42] [x41; x42]);
    [vm_compute; discriminate|vm_compute; discriminate|vm_compute; reflexivity].
Defined.

Lemma filter_length_bound {A} (f : A -> bool) (l : list A) :
  (length (List.filter f l) <= length l)%nat.
Proof.
  induction l as [|x l IH]; [reflexivity|]. simpl. destruct (f x); simpl; lia.
Qed.

(** X11. When the search is carried out (a nonempty pattern of length [m] no
    longer than the text, a text of length [n] below [INT_MAX]), the run reads
    and writes the text, the pattern, [badCharTable], [goodSuffixShifts] and
    [borderPos] at most [13 m + 7 + (2 m + 6) (n - m + 1)] times in all. *)
Theorem search_work_bound (text pattern : list byte) :
  1 <= len pattern -> len pattern <= len text -> len text < INT_MAX ->
  exists o l,
    searchBoyerMoore text pattern = Ok o l /\
    Z.of_nat (access_count l)
    <= 13 * len pattern + 7
       + (2 * len pattern + 6) * (len text - len pattern + 1).
Proof.
  intros Hm Hn _.
  destruct (searchBoyerMoore_book text pattern)
    as (st & l & l' & Hrun & _ & _ & _ & _ & _ & _ & _ & _ & _ & _ & Hlen); [lia|].
  destruct (searchBoyerMoore_spec text pattern)
    as (st0 & l0 & Hrun0 & _ & _ & Hcount & _); [lia|].
  rewrite Hrun in Hrun0. injection Hrun0 as <- <-.
  exists (Searched st), l. split; [exact Hrun|].
  pose proof (filter_length_bound is_access l) as Hacc. unfold access_count. nia.
Qed.

Lemma search_work_bound_witness :
  1 <= len [x41; x42] /\
  len [x41; x42] <= len [x41; x41; x41; x41; x41; x41; x42] /\
  len [x41; x41; x41; x41; x41; x41; x42] < INT_MAX /\
  exists o l,
    searchBoyerMoore [x41; x41; x41; x41; x41; x41; x42] [x41; x42] = Ok o l /\
    Z.of_nat (access_count l)
    <= 13 * len [x41; x42] + 7
       + (2 * len [x41; x42] + 6)
         * (len [x41; x41; x41; x41; x41; x41; x42] - len [x41; x42] + 1).
Proof.
  split; [vm_compute; discriminate|]. split; [vm_compute; discriminate|].
  split; [vm_compute; reflexivity|].
  apply (search_work_bound [x41; x41; x41; x41; x41; x41; x42] [x41; x42]);
    [vm_compute; discriminate|vm_compute; discriminate|vm_compute; reflexivity].
Defined.

(** X12. When the pattern is as long as the text, not empty and shorter than
    [INT_MAX], the search tries the single alignment 0 and records offset 0
    exactly when the two strings are equal. *)
Theorem pattern_as_long_as_text (text pattern : list byte) :
  1 <= len pattern -> len pattern = len text -> len text < INT_MAX ->
  exists o l,
    searchBoyerMoore text pattern = Ok o l /\
    alignments l = [0] /\
    matches o = (if bool_decide (text = pattern) then [0] else []).
Proof.
  intros Hm Hn _.
  destruct (searchBoyerMoore_book text pattern)
    as (st & l & l' & Hrun & _ & _ & _ & _ & _ & _ & _ & _ & _ & Hdiag & _); [lia|].
  destruct (searchBoyerMoore_spec text pattern)
    as (st0 & l0 & Hrun0 & Hnaive & _ & Hcount & _); [lia|].
  rewrite Hrun in Hrun0. injection Hrun0 as <- <-.
  exists (Searched st), l. split; [exact Hrun|]. split.
  - rewrite Hdiag in *. destruct (pattern_alignments l); [reflexivity|].
    simpl in Hcount. lia.
  - simpl. rewrite Hnaive. unfold naive_search.
    rewrite (occurrences_beyond text pattern (S (length text)))
      by (unfold len in *; lia).
    replace (Z.to_nat (len text - len pattern + 1)) with 1%nat by lia.
    simpl. rewrite filter_cons, filter_nil. unfold occurs_at.
    rewrite drop_0, take_ge by (unfold len in *; lia).
    destruct (decide (text = pattern)) as [Heq|Hne].
    + rewrite !bool_decide_eq_true_2 by assumption.
      rewrite decide_True by reflexivity. reflexivity.
    + rewrite !bool_decide_eq_false_2 by assumption.
      rewrite decide_False by discriminate. reflexivity.
Qed.

Lemma pattern_as_long_as_text_witness :
  1 <= len [x41; x42] /\ len [x41; x42] = len [x41; x42] /\
  len [x41; x42] < INT_MAX /\
  exists o l,
    searchBoyerMoore [x41; x42] [x41; x42] = Ok o l /\
    alignments l = [0] /\
    matches o = (if bool_decide ([x41; x42] = [x41; x42]) then [0] else []).
Proof.
  split; [vm_compute; discriminate|]. split; [reflexivity|].
  split; [vm_compute; reflexivity|].
  apply (pattern_as_long_as_text [x41; x42] [x41; x42]);
    [vm_compute; discriminate|reflexivity|vm_compute; reflexivity].
Defined.

(** ** The best case: no character of the text occurs in the pattern *)

Lemma searchBoyerMoore_parts (text pattern : list byte) :
  let n := len text in
  let m := len pattern in
  1 <= m <= n ->
  exists T lT G lG st lloop tl,
    precomputeBadCharacterTable pattern = Ok T lT /\
    precomputeGoodSuffixTable pattern = Ok G lG /\
    while (S (Z.to_nat (n - m + 1)))
      (fun st => ret (shift st <=? n - m))
      (search_step text pattern n m T G)
      {| shift := 0; matchedIndex := []; found := false;
         totalSkippedChars := 0; step := 1 |}
    = Ok st lloop /\
    searchBoyerMoore text pattern = Ok (Searched st) (lT ++ lG ++ lloop ++ tl) /\
    alignments (lT ++ lG ++ lloop ++ tl) = alignments lloop.
Proof.
  intros n m Hm. unfold searchBoyerMoore. fold n m.
  destruct (Z.eqb_spec m 0) as [|_]; [lia|].
  destruct (Z.ltb_spec n m) as [|_]; [lia|]. simpl.
  destruct (precomputeBadCharacterTable_spec pattern n)
    as (T & lT & HrunT & HT & Hlast & HlT).
  destruct (precomputeGoodSuffixTable_spec pattern n)
    as (G & lG & HrunG & HG & HlG & _).
  destruct (search_loop_book text pattern T G) as (st & l & Hrun & _);
    try assumption.
  fold n m in Hrun. rewrite HrunT, HrunG. simpl. rewrite Hrun. simpl.
  assert (Hal : forall tl, alignments tl = [] ->
                  alignments (lT ++ lG ++ l ++ tl) = alignments l).
  { intros tl Htl. rewrite !alignments_app, Htl, app_nil_r.
    now rewrite (access_ok_alignments _ _ _ HlT), (access_ok_alignments _ _ _ HlG). }
  destruct (negb (found st)); simpl;
    (eexists T, lT, G, lG, st, l, _;
     split; [first [reflexivity|exact HrunT]|];
     split; [first [reflexivity|exact HrunG]|];
     split; [first [reflexivity|exact Hrun]|];
     split; [reflexivity|]; apply Hal; reflexivity).
Qed.

Lemma search_loop_absent (text pattern : list byte) (T G : list Z) :
  let n := len text in
  let m := len pattern in
  1 <= m <= n -> len T = NUM_CHARS ->
  (forall c, last_before pattern m c (at_index T (uchar c))) ->
  good_suffix_table pattern G ->
  (forall q k, 0 <= q < n -> 0 <= k < m ->
               at_index text q ≠ at_index pattern k) ->
  exists st l,
    while (S (Z.to_nat (n - m + 1)))
      (fun st => ret (shift st <=? n - m))
      (search_step text pattern n m T G)
      {| shift := 0; matchedIndex := []; found := false;
         totalSkippedChars := 0; step := 1 |}
    = Ok st l /\
    alignments l = Z.mul m <$> seqZ 0 ((n - m) / m + 1) /\
    shift st = m * ((n - m) / m + 1) /\
    matchedIndex st = [].
Proof.
  intros n m Hm HT Hlast HGspec Habsent.
  pose proof HGspec as (HG & _ & Hslots). fold m in HG.
  apply (while_rule
           (fun st l =>
              let tried := Z.of_nat (length (alignments l)) in
              shift st = m * tried /\ m * (tried - 1) <= n - m /\
              alignments l = Z.mul m <$> seqZ 0 tried /\
              matchedIndex st = [])
           (fun st l =>
              alignments l = Z.mul m <$> seqZ 0 ((n - m) / m + 1) /\
              shift st = m * ((n - m) / m + 1) /\
              matchedIndex st = [])
           (fun st => Z.to_nat (n - m + 1 - shift st)) _ _) with (l := []).
  - intros st l (Hshift & Hlast' & Hal & Hmatched).
    exists (shift st <=? n - m), []. split; [reflexivity|]. rewrite app_nil_r.
    destruct (Z.leb_spec (shift st) (n - m)) as [Hle|Hgt].
    2:{ assert (Hk : (n - m) / m + 1 = Z.of_nat (length (alignments l))).
        { assert (Hq : (n - m) / m = Z.of_nat (length (alignments l)) - 1);
            [|lia].
          symmetry. apply (Z.div_unique_pos (n - m) m _
                             (n - m - m * (Z.of_nat (length (alignments l)) - 1)));
            lia. }
        rewrite Hk. auto. }
    assert (Hs : 0 <= shift st) by nia.
    destruct (compare_spec text pattern (shift st)) as (j & lc & Hcmp & Hcinv & Hmis);
      [lia|fold n m; lia|].
    destruct Hcinv as (Hj & Heq & Hlc). fold m in Hcmp, Hj, Heq. fold n m in Hlc.
    assert (Hjm : j = m - 1).
    { destruct (Z.eq_dec j (m - 1)) as [|Hne]; [assumption|exfalso].
      apply (Habsent (shift st + (m - 1)) (m - 1)); [lia|lia|].
      symmetry. apply Heq. lia. }
    subst j.
    assert (Hbc : at_index T (uchar (at_index text (shift st + (m - 1)))) = -1).
    { destruct (Hlast (at_index text (shift st + (m - 1)))) as [[Hv _]|(Hv & Hc & _)];
        [exact Hv|exfalso].
      apply (Habsent (shift st + (m - 1)) _ ltac:(lia) Hv). now rewrite Hc. }
    destruct (Hslots (m - 1 + 1)) as [Hrange _]; [fold m; lia|]. fold m in Hrange.
    destruct (search_step_mismatch text pattern T G st (m - 1) lc Hcmp)
      as (lb & Hrun & _ & Hlb); [lia|lia|fold n m; lia|exact HT|exact HG|].
    fold n m in Hrun, Hlb. destruct (Hlb Hlc) as [_ Halb].
    rewrite Hbc in Hrun.
    replace (Z.max (Z.max 1 (m - 1 - -1)) (at_index G (m - 1 + 1))) with m in Hrun by lia.
    eexists _, lb. split; [exact Hrun|]. simpl.
    assert (Htried : Z.of_nat (length (alignments (l ++ lb)))
                     = Z.of_nat (length (alignments l)) + 1).
    { rewrite alignments_app, Halb, length_app. simpl. lia. }
    rewrite Htried. split; [|lia]. split; [lia|]. split; [lia|].
    split; [|exact Hmatched].
    rewrite alignments_app, Halb, seqZ_snoc, fmap_app by lia.
    rewrite <- Hal. simpl. now rewrite Hshift.
  - simpl. split; [lia|]. split; [lia|]. split; reflexivity.
  - simpl. lia.
Qed.

(** X13. When the search is carried out (a nonempty pattern of length [m] no
    longer than the text, a text of length [n] below [INT_MAX]) and no
    character of the text occurs in the pattern, every alignment fails on its
    first comparison and shifts by the whole pattern length: the alignments
    tried are exactly [0, m, 2m, ...], [(n - m) / m + 1] of them, the loop is
    left with the alignment at [m * ((n - m) / m + 1)], and nothing is
    recorded. *)
Theorem absent_characters_shift_by_pattern_length (text pattern : list byte) :
  1 <= len pattern -> len pattern <= len text -> len text < INT_MAX ->
  (forall q k, 0 <= q < len text -> 0 <= k < len pattern ->
               at_index text q ≠ at_index pattern k) ->
  exists st l,
    searchBoyerMoore text pattern = Ok (Searched st) l /\
    alignments l
    = Z.mul (len pattern)
        <$> seqZ 0 ((len text - len pattern) / len pattern + 1) /\
    shift st = len pattern * ((len text - len pattern) / len pattern + 1) /\
    matchedIndex st = [].
Proof.
  intros Hm Hn _ Habsent.
  destruct (searchBoyerMoore_parts text pattern)
    as (T & lT & G & lG & st & lloop & tl & HrunT & HrunG & Hloop & Hrun & Hal); [lia|].
  destruct (precomputeBadCharacterTable_spec pattern 0)
    as (T' & lT' & HrunT' & HT & Hlast & _).
  rewrite HrunT in HrunT'. injection HrunT' as <- <-.
  destruct (precomputeGoodSuffixTable_spec pattern 0)
    as (G' & lG' & HrunG' & HG & _).
  rewrite HrunG in HrunG'. injection HrunG' as <- <-.
  destruct (search_loop_absent text pattern T G)
    as (st' & l' & Hloop' & Hmul & Hshift & Hnone); try assumption; [lia|].
  rewrite Hloop in Hloop'. injection Hloop' as <- <-.
  eexists _, _. split; [exact Hrun|]. rewrite Hal.
  split; [exact Hmul|]. split; [exact Hshift|exact Hnone].
Qed.

Lemma absent_characters_shift_by_pattern_length_witness :
  1 <= len [x58; x59] /\ len [x58; x59] <= len [x41; x41; x41; x41; x41] /\
  len [x41; x41; x41; x41; x41] < INT_MAX /\
  (forall q k, 0 <= q < len [x41; x41; x41; x41; x41] -> 0 <= k < len [x58; x59] ->
               at_index [x41; x41; x41; x41; x41] q ≠ at_index [x58; x59] k) /\
  exists st l,
    searchBoyerMoore [x41; x41; x41; x41; x41] [x58; x59] = Ok (Searched st) l /\
    alignments l
    = Z.mul (len [x58; x59])
        <$> seqZ 0 ((len [x41; x41; x41; x41; x41] - len [x58; x59])
                    / len [x58; x59] + 1) /\
    shift st
    = len [x58; x59]
      * ((len [x41; x41; x41; x41; x41] - len [x58; x59]) / len [x58; x59] + 1) /\
    matchedIndex st = [].
Proof.
  assert (H : forall q k, 0 <= q < len [x41; x41; x41; x41; x41] ->
                0 <= k < len [x58; x59] ->
                at_index [x41; x41; x41; x41; x41] q ≠ at_index [x58; x59] k).
  { intros q k Hq Hk. unfold len in Hq, Hk. simpl in Hq, Hk.
    assert (Hqs : q = 0 \/ q = 1 \/ q = 2 \/ q = 3 \/ q = 4) by lia.
    assert (Hks : k = 0 \/ k = 1) by lia.
    destruct Hqs as [->|[->|[->|[->| ->]]]]; destruct Hks as [->| ->];
      vm_compute; discriminate. }
  split; [vm_compute; discriminate|]. split; [vm_compute; discriminate|].
  split; [vm_compute; reflexivity|]. split; [exact H|].
  apply (absent_characters_shift_by_pattern_length
           [x41; x41; x41; x41; x41] [x58; x59]);
    [vm_compute; discriminate|vm_compute; discriminate|vm_compute; reflexivity
    |exact H].
Defined.
